(** * Sequential model of the SPSC queues of [LockFreeQueue.h]

    The three class templates of the header are embedded as state-passing
    functions: [LockFreeQueue] (fixed ring buffer), [UnboundedLockFreeQueue]
    (chain of ring-buffer blocks on a heap) and [MutexedQueue] (the same
    ring buffer behind a lock).

    Conventions.
    - [std::size_t] is a 64-bit unsigned integer, held in [Z]; every
      addition is followed by its wrap-around [size_t_wrap] and every [%]
      goes through [size_t_rem], which is undefined for a zero divisor.
    - A call whose C++ behaviour is undefined (array index out of range,
      null or dangling pointer, remainder by zero, double delete) evaluates
      to [None]; a defined call evaluates to [Some] of its return value, its
      out-parameter and the new state.
    - The only exception is the [std::bad_alloc] of a [new]-expression on
      an exhausted free store; a function that can be left by it yields a
      [completion].
    - Atomic loads and stores are plain reads and writes: the memory-order
      arguments have no meaning in a sequential execution. *)

From stdpp Require Import base option list gmap.
From Stdlib Require Import ZArith Lia.

Local Open Scope Z_scope.

(** ** Machine integers and arrays *)

Definition SIZE_WIDTH : Z := 64.

Definition size_t_wrap (x : Z) : Z := x mod 2 ^ SIZE_WIDTH.

(** [a % b] on [std::size_t]. *)
Definition size_t_rem (a b : Z) : option Z :=
  if decide (b = 0) then None else Some (a mod b).

(** [a[i]] read as an rvalue. *)
Definition array_get {T : Type} (a : list T) (i : Z) : option T :=
  if decide (0 ≤ i) then a !! Z.to_nat i else None.

(** [a[i] = v]. *)
Definition array_set {T : Type} (a : list T) (i : Z) (v : T) : option (list T) :=
  if decide (0 ≤ i < Z.of_nat (length a)) then Some (<[Z.to_nat i := v]> a) else None.

(** How a call or a [new]-expression ends: it yields a value, or it is
    left by the exception [std::bad_alloc]. *)
Inductive completion (A : Type) : Type :=
| Returned (a : A)
| Thrown_bad_alloc.
Arguments Returned {A} a.
Arguments Thrown_bad_alloc {A}.

(** ** [LockFreeQueue<T, size>] *)

Module LockFreeQueue.
Section Queue.
Context {T : Type}.
(** The template argument [size] and the value the elements of the
    default-initialised array [data] start with. *)
Variable size : Z.
Variable dflt : T.

Record t : Type := mk {
  capacity : Z;
  reader : Z;
  writer : Z;
  data : list T
}.

(** [LockFreeQueue() : reader(0), writer(0), capacity(size + 1)] *)
Definition make : t :=
  {| capacity := size_t_wrap (size + 1);
     reader := 0;
     writer := 0;
     data := replicate (Z.to_nat (size_t_wrap (size + 1))) dflt |}.

Definition push (q : t) (elem : T) : option (bool * t) :=
  let wr_pos := writer q in
  next_pos ← size_t_rem (size_t_wrap (wr_pos + 1)) (capacity q);
  if decide (next_pos = reader q) then Some (false, q)
  else
    data' ← array_set (data q) wr_pos elem;
    Some (true, {| capacity := capacity q; reader := reader q;
                   writer := next_pos; data := data' |}).

(** The second component is the value of the out-parameter [elem] after
    the call. *)
Definition pop (q : t) (elem : T) : option (bool * T * t) :=
  let rd_pos := reader q in
  if decide (rd_pos = writer q) then Some (false, elem, q)
  else
    elem' ← array_get (data q) rd_pos;
    next_pos ← size_t_rem (size_t_wrap (rd_pos + 1)) (capacity q);
    Some (true, elem', {| capacity := capacity q; reader := next_pos;
                          writer := writer q; data := data q |}).

(** A caller that pushes the values of a list one after the other and
    records the results. *)
Fixpoint push_all (q : t) (vs : list T) : option (list bool * t) :=
  match vs with
  | [] => Some ([], q)
  | v :: vs' =>
      '(b, q1) ← push q v;
      '(bs, q2) ← push_all q1 vs';
      Some (b :: bs, q2)
  end.

(** A caller that pops [n] times into one variable [elem] and records,
    for each call, the result and the variable's value after it. *)
Fixpoint pop_n (q : t) (elem : T) (n : nat) : option (list (bool * T) * t) :=
  match n with
  | O => Some ([], q)
  | S n' =>
      '(b, e, q1) ← pop q elem;
      '(rs, q2) ← pop_n q1 e n';
      Some ((b, e) :: rs, q2)
  end.

(** States a sequential client can bring the queue into. *)
Inductive reachable : t → Prop :=
| reach_make : reachable make
| reach_push q v b q' : reachable q → push q v = Some (b, q') → reachable q'
| reach_pop q e b e' q' : reachable q → pop q e = Some (b, e', q') → reachable q'.

(** [(writer - reader) mod (C + 1)] *)
Definition live (q : t) : Z := (writer q - reader q) mod capacity q.

(** The shape every state of a [LockFreeQueue<T, size>] has: [size + 1]
    slots and both indices inside the array. *)
Definition wf (q : t) : Prop :=
  capacity q = size + 1 ∧
  Z.of_nat (length (data q)) = size + 1 ∧
  0 ≤ reader q < size + 1 ∧
  0 ≤ writer q < size + 1.

(** [represents q l]: the elements waiting in [q], oldest first, are [l];
    they sit in the slots [reader, reader + 1, ...] taken modulo the
    array length, up to but without [writer]. *)
Definition represents (q : t) (l : list T) : Prop :=
  wf q ∧
  Z.of_nat (length l) = live q ∧
  ∀ (i : nat) (x : T), l !! i = Some x →
    data q !! Z.to_nat ((reader q + Z.of_nat i) mod capacity q) = Some x.

End Queue.
End LockFreeQueue.

(** ** [MutexedQueue<T, size>] *)

Module MutexedQueue.
Section Queue.
Context {T : Type}.
Variable size : Z.
Variable dflt : T.

(** [lock] is [true] while the [std::mutex] is held. *)
Record t : Type := mk {
  data : list T;
  capacity : Z;
  lock : bool;
  reader : Z;
  writer : Z
}.

(** [MutexedQueue() : reader(0), writer(0), capacity(size + 1)] *)
Definition make : t :=
  {| data := replicate (Z.to_nat (size_t_wrap (size + 1))) dflt;
     capacity := size_t_wrap (size + 1);
     lock := false;
     reader := 0;
     writer := 0 |}.

(** Construction of the [std::lock_guard]: locking a mutex the calling
    thread already holds is undefined. *)
Definition lock_guard (q : t) : option t :=
  if lock q then None
  else Some {| data := data q; capacity := capacity q; lock := true;
               reader := reader q; writer := writer q |}.

(** Destruction of the [std::lock_guard] at scope exit. *)
Definition unlock (q : t) : t :=
  {| data := data q; capacity := capacity q; lock := false;
     reader := reader q; writer := writer q |}.

Definition push (q : t) (elem : T) : option (bool * t) :=
  q ← lock_guard q;
  next_pos ← size_t_rem (size_t_wrap (writer q + 1)) (capacity q);
  if decide (next_pos = reader q) then Some (false, unlock q)
  else
    data' ← array_set (data q) (writer q) elem;
    Some (true, unlock {| data := data'; capacity := capacity q; lock := lock q;
                          reader := reader q; writer := next_pos |}).

Definition pop (q : t) (elem : T) : option (bool * T * t) :=
  q ← lock_guard q;
  if decide (reader q = writer q) then Some (false, elem, unlock q)
  else
    elem' ← array_get (data q) (reader q);
    next_pos ← size_t_rem (size_t_wrap (reader q + 1)) (capacity q);
    Some (true, elem', unlock {| data := data q; capacity := capacity q; lock := lock q;
                                 reader := next_pos; writer := writer q |}).

End Queue.
End MutexedQueue.

(** ** Clients of the two bounded queues

    A call is either [push(v)] or [pop(elem)]; the caller keeps one variable
    [elem] that every [pop] receives by reference.  The trace of a run lists,
    per call, the returned flag and, for [pop], the value of [elem] after
    the call. *)

Inductive call (T : Type) : Type :=
| Push (v : T)
| Pop.
Arguments Push {T} v.
Arguments Pop {T}.

Inductive outcome (T : Type) : Type :=
| Pushed (ok : bool)
| Popped (ok : bool) (elem : T).
Arguments Pushed {T} ok.
Arguments Popped {T} ok elem.

Section Run.
Context {T Q : Type}.
Variable push : Q → T → option (bool * Q).
Variable pop : Q → T → option (bool * T * Q).

Fixpoint run (q : Q) (elem : T) (cs : list (call T)) : option (list (outcome T) * T * Q) :=
  match cs with
  | [] => Some ([], elem, q)
  | Push v :: cs' =>
      '(b, q1) ← push q v;
      '(os, e2, q2) ← run q1 elem cs';
      Some (Pushed b :: os, e2, q2)
  | Pop :: cs' =>
      '(b, e1, q1) ← pop q elem;
      '(os, e2, q2) ← run q1 e1 cs';
      Some (Popped b e1 :: os, e2, q2)
  end.
End Run.

(** The ring buffer inside a [MutexedQueue], as a [LockFreeQueue] state. *)
Definition erase_lock {T : Type} (m : @MutexedQueue.t T) : @LockFreeQueue.t T :=
  LockFreeQueue.mk (MutexedQueue.capacity m) (MutexedQueue.reader m)
                   (MutexedQueue.writer m) (MutexedQueue.data m).

(** ** [UnboundedLockFreeQueue<T, size>] *)

Module UnboundedLockFreeQueue.

(** A [MemoryBlock*] is an address or [nullptr], which is [None]. *)
Abbreviation addr := positive (only parsing).
Abbreviation ptr := (option positive) (only parsing).

Section Queue.
Context {T : Type}.
Variable size : Z.
Variable dflt : T.

Record MemoryBlock : Type := mkBlock {
  reader : Z;
  writer : Z;
  next_block : ptr;
  data : list T
}.

(** [MemoryBlock() : reader(0), writer(0), next_block(nullptr)] *)
Definition MemoryBlock_make : MemoryBlock :=
  {| reader := 0; writer := 0; next_block := None;
     data := replicate (Z.to_nat (size_t_wrap (size + 1))) dflt |}.

Definition set_reader (v : Z) (b : MemoryBlock) : MemoryBlock :=
  {| reader := v; writer := writer b; next_block := next_block b; data := data b |}.
Definition set_writer (v : Z) (b : MemoryBlock) : MemoryBlock :=
  {| reader := reader b; writer := v; next_block := next_block b; data := data b |}.
Definition set_next_block (p : ptr) (b : MemoryBlock) : MemoryBlock :=
  {| reader := reader b; writer := writer b; next_block := p; data := data b |}.
Definition set_data (d : list T) (b : MemoryBlock) : MemoryBlock :=
  {| reader := reader b; writer := writer b; next_block := next_block b; data := d |}.

(** The free store.  [blocks] are the live blocks.  [new] hands out the
    addresses [1, 2, ...] in turn and never the same one twice, so an
    address names one allocation; the store is exhausted when [quota]
    blocks are live.  [allocated] and [freed] log the calls of [new] and
    [delete]. *)
Record memory : Type := mkMemory {
  blocks : gmap positive MemoryBlock;
  next_addr : addr;
  quota : nat;
  allocated : list addr;
  freed : list addr
}.

Definition memory_make (quota : nat) : memory :=
  {| blocks := ∅; next_addr := 1%positive; quota := quota;
     allocated := []; freed := [] |}.

Definition set_blocks (bs : gmap positive MemoryBlock) (m : memory) : memory :=
  {| blocks := bs; next_addr := next_addr m; quota := quota m;
     allocated := allocated m; freed := freed m |}.

(** [new MemoryBlock()].  The expression is the plain, throwing form: its
    allocation function [operator new(std::size_t)] reports an exhausted
    store by throwing [std::bad_alloc] and never by a null pointer. *)
Definition mem_new (m : memory) : completion (ptr * memory) :=
  if decide (base.size (blocks m) < quota m)%nat then
    Returned
      (Some (next_addr m),
       {| blocks := <[next_addr m := MemoryBlock_make]> (blocks m);
          next_addr := Pos.succ (next_addr m);
          quota := quota m;
          allocated := allocated m ++ [next_addr m];
          freed := freed m |})
  else Thrown_bad_alloc.

(** [delete p] *)
Definition mem_delete (m : memory) (p : ptr) : option memory :=
  match p with
  | None => Some m
  | Some a =>
      _ ← blocks m !! a;
      Some {| blocks := delete a (blocks m);
              next_addr := next_addr m;
              quota := quota m;
              allocated := allocated m;
              freed := freed m ++ [a] |}
  end.

(** [*p] read. *)
Definition load (m : memory) (p : ptr) : option MemoryBlock :=
  a ← p; blocks m !! a.

(** A write to one member of [*p]. *)
Definition update (m : memory) (p : ptr) (f : MemoryBlock → MemoryBlock) : option memory :=
  a ← p;
  b ← blocks m !! a;
  Some (set_blocks (<[a := f b]> (blocks m)) m).

Record t : Type := mk {
  capacity : Z;
  head : ptr;
  tail : ptr;
  stop : bool;
  mem : memory
}.

Definition set_head (p : ptr) (q : t) : t :=
  {| capacity := capacity q; head := p; tail := tail q; stop := stop q; mem := mem q |}.
Definition set_tail (p : ptr) (q : t) : t :=
  {| capacity := capacity q; head := head q; tail := p; stop := stop q; mem := mem q |}.
Definition set_stop (b : bool) (q : t) : t :=
  {| capacity := capacity q; head := head q; tail := tail q; stop := b; mem := mem q |}.
Definition set_mem (m : memory) (q : t) : t :=
  {| capacity := capacity q; head := head q; tail := tail q; stop := stop q; mem := m |}.

(** [UnboundedLockFreeQueue() : capacity(size + 1), stop(false)
    { head = tail = new MemoryBlock(); }], on a free store with room for
    [quota] blocks.  No queue comes into being when [new] throws. *)
Definition make (quota : nat) : completion t :=
  match mem_new (memory_make quota) with
  | Returned (p, m) =>
      Returned {| capacity := size_t_wrap (size + 1); head := p; tail := p;
                  stop := false; mem := m |}
  | Thrown_bad_alloc => Thrown_bad_alloc
  end.

(** [push] up to, and without, the write of the element: the point reached
    is a return, an exception, or lines 117-118 with the locals
    [current_tail], [wr_pos] and [next_pos]. *)
Inductive push_point : Type :=
| PushReturn (b : bool) (q : t)
| PushThrow (q : t)
| PushWrite (q : t) (current_tail : ptr) (wr_pos next_pos : Z).

(** Lines 105-113, with the value [next_block] of the [new]-expression and
    the free store [m1] after it. *)
Definition push_link (q : t) (current_tail next_block : ptr) (m1 : memory)
  : option push_point :=
  if decide (next_block = None) then Some (PushReturn false (set_mem m1 q))
  else
    m2 ← update m1 current_tail (set_next_block next_block);
    let current_tail := next_block in
    let q := set_mem m2 (set_tail current_tail q) in
    let wr_pos := 0 in
    next_pos ← size_t_rem (size_t_wrap (wr_pos + 1)) (capacity q);
    Some (PushWrite q current_tail wr_pos next_pos).

Definition push_prepare (q : t) : option push_point :=
  if negb (stop q) then
    let current_tail := tail q in
    blk ← load (mem q) current_tail;
    let wr_pos := writer blk in
    next_pos ← size_t_rem (size_t_wrap (wr_pos + 1)) (capacity q);
    if decide (next_pos = reader blk) then
      match mem_new (mem q) with
      | Returned (next_block, m1) => push_link q current_tail next_block m1
      | Thrown_bad_alloc => Some (PushThrow q)
      end
    else Some (PushWrite q current_tail wr_pos next_pos)
  else Some (PushReturn false q).

(** Lines 117-120: [current_tail->data[wr_pos] = elem;
    current_tail->writer.store(next_pos); return true;] *)
Definition push_write (q : t) (current_tail : ptr) (wr_pos next_pos : Z) (elem : T)
  : option (completion bool * t) :=
  blk ← load (mem q) current_tail;
  data' ← array_set (data blk) wr_pos elem;
  m1 ← update (mem q) current_tail (set_data data');
  m2 ← update m1 current_tail (set_writer next_pos);
  Some (Returned true, set_mem m2 q).

Definition push (q : t) (elem : T) : option (completion bool * t) :=
  pt ← push_prepare q;
  match pt with
  | PushReturn b q' => Some (Returned b, q')
  | PushThrow q' => Some (Thrown_bad_alloc, q')
  | PushWrite q' current_tail wr_pos next_pos =>
      push_write q' current_tail wr_pos next_pos elem
  end.

(** Lines 149-152: [elem = current_head->data[rd_pos];
    current_head->reader.store((rd_pos + 1) % capacity); return true;] *)
Definition pop_read (q : t) (current_head : ptr) (rd_pos : Z) : option (bool * T * t) :=
  blk ← load (mem q) current_head;
  elem' ← array_get (data blk) rd_pos;
  next_pos ← size_t_rem (size_t_wrap (rd_pos + 1)) (capacity q);
  m1 ← update (mem q) current_head (set_reader next_pos);
  Some (true, elem', set_mem m1 q).

Definition pop (q : t) (elem : T) : option (bool * T * t) :=
  if negb (stop q) then
    let current_head := head q in
    blk ← load (mem q) current_head;
    let rd_pos := reader blk in
    if decide (rd_pos = writer blk) then
      let next_block := next_block blk in
      if decide (next_block = None) then Some (false, elem, q)
      else
        let q := set_head next_block q in
        m1 ← mem_delete (mem q) current_head;
        let q := set_mem m1 q in
        let current_head := next_block in
        let rd_pos := 0 in
        blk' ← load (mem q) current_head;
        if decide (rd_pos = writer blk') then Some (false, elem, q)
        else pop_read q current_head rd_pos
    else pop_read q current_head rd_pos
  else Some (false, elem, q).

(** The loop of the destructor.  Every iteration deletes a live block, so
    the number of live blocks bounds the iterations; [fuel] is that bound
    and the function is [None] as well when it is used up.  [next] is the
    loop variable [next_block]. *)
Fixpoint destroy_loop (fuel : nat) (q : t) (current_head next : ptr) : option t :=
  match next with
  | None => Some q
  | Some _ =>
      match fuel with
      | O => None
      | S fuel' =>
          let q := set_head next q in
          m1 ← update (mem q) current_head (set_next_block None);
          m2 ← mem_delete m1 current_head;
          let q := set_mem m2 q in
          let current_head := head q in
          blk ← load (mem q) (head q);
          destroy_loop fuel' q current_head (next_block blk)
      end
  end.

(** [~UnboundedLockFreeQueue()] *)
Definition destroy (q : t) : option t :=
  let q := set_stop true q in
  let current_head := head q in
  blk ← load (mem q) current_head;
  q ← destroy_loop (base.size (blocks (mem q))) q current_head (next_block blk);
  m ← mem_delete (mem q) (head q);
  Some (set_mem m q).

(** A caller that pushes the values of a list one after the other,
    catching [std::bad_alloc], and records how each call ended. *)
Fixpoint push_all (q : t) (vs : list T) : option (list (completion bool) * t) :=
  match vs with
  | [] => Some ([], q)
  | v :: vs' =>
      '(b, q1) ← push q v;
      '(bs, q2) ← push_all q1 vs';
      Some (b :: bs, q2)
  end.

Fixpoint pop_n (q : t) (elem : T) (n : nat) : option (list (bool * T) * t) :=
  match n with
  | O => Some ([], q)
  | S n' =>
      '(b, e, q1) ← pop q elem;
      '(rs, q2) ← pop_n q1 e n';
      Some ((b, e) :: rs, q2)
  end.

(** States a sequential client reaches: whole calls of [push] and [pop],
    one after the other, on a queue whose constructor obtained its first
    block. *)
Inductive reachable : t → Prop :=
| reach_make quota q : make quota = Returned q → reachable q
| reach_push q v c q' : reachable q → push q v = Some (c, q') → reachable q'
| reach_pop q e b e' q' : reachable q → pop q e = Some (b, e', q') → reachable q'.

(** States the consumer can meet.  Besides the above, the producer may
    stand between the publication of a new block's link and the write of
    the element (lines 110 and 117), and the consumer may call [pop] any
    number of times while it stands there. *)
Inductive observable : t → Prop :=
| obs_reachable q : reachable q → observable q
| obs_mid_push q q' ct wr_pos next_pos :
    reachable q → push_prepare q = Some (PushWrite q' ct wr_pos next_pos) →
    observable q'
| obs_pop q e b e' q' : observable q → pop q e = Some (b, e', q') → observable q'.

(** The head block [h] is drained and linked to a block [n] into which
    nothing has been published. *)
Definition drained_before_empty (q : t) (h n : addr) : Prop :=
  head q = Some h ∧
  ∃ hb nb,
    blocks (mem q) !! h = Some hb ∧ reader hb = writer hb ∧
    next_block hb = Some n ∧
    blocks (mem q) !! n = Some nb ∧ writer nb = 0.

(** Descriptions of successor states: [with_block a b q] is [q] with block
    [b] at address [a]; [without_block a q] is [q] after [delete] of the
    block at [a]; [with_new_block q] is [q] after a successful [new]. *)
Definition with_block (a : addr) (b : MemoryBlock) (q : t) : t :=
  set_mem (set_blocks (<[a := b]> (blocks (mem q))) (mem q)) q.

Definition without_block (a : addr) (q : t) : t :=
  set_mem {| blocks := delete a (blocks (mem q));
             next_addr := next_addr (mem q);
             quota := quota (mem q);
             allocated := allocated (mem q);
             freed := freed (mem q) ++ [a] |} q.

Definition with_new_block (q : t) : t :=
  set_mem {| blocks := <[next_addr (mem q) := MemoryBlock_make]> (blocks (mem q));
             next_addr := Pos.succ (next_addr (mem q));
             quota := quota (mem q);
             allocated := allocated (mem q) ++ [next_addr (mem q)];
             freed := freed (mem q) |} q.

(** The block [b] after [data[wr_pos] = elem; writer.store(next_pos)]. *)
Definition written (wr_pos next_pos : Z) (elem : T) (b : MemoryBlock) : MemoryBlock :=
  set_writer next_pos (set_data (<[Z.to_nat wr_pos := elem]> (data b)) b).

(** The shape of a block of an [UnboundedLockFreeQueue<T, size>]:
    [size + 1] slots and both indices inside the array. *)
Definition block_wf (b : MemoryBlock) : Prop :=
  Z.of_nat (length (data b)) = size + 1 ∧
  0 ≤ reader b < size + 1 ∧
  0 ≤ writer b < size + 1.

Definition wf (q : t) : Prop :=
  capacity q = size + 1 ∧
  map_Forall (λ _ b, block_wf b) (blocks (mem q)).

(** [chain bs l]: the blocks at the addresses [l] are live in [bs] and
    each is linked to the next one of [l], the last one to [nullptr]. *)
Fixpoint chain (bs : gmap positive MemoryBlock) (l : list addr) : Prop :=
  match l with
  | [] => True
  | a :: l' => (∃ b, bs !! a = Some b ∧ next_block b = l' !! 0%nat) ∧ chain bs l'
  end.

(** The invariant of the sequential states.  The live blocks are a chain
    [l] from [head] to [tail] and nothing else; in the order of their
    allocation, the blocks are the deleted ones followed by [l], so that a
    block is deleted at most once and never while it is in the chain;
    [new] has not yet handed out [next_addr]. *)
Definition inv (q : t) : Prop :=
  wf q ∧ stop q = false ∧
  ∃ l : list addr,
    is_Some (head q) ∧ head q = l !! 0%nat ∧ tail q = last l ∧
    chain (blocks (mem q)) l ∧
    (∀ a, is_Some (blocks (mem q) !! a) ↔ a ∈ l) ∧
    allocated (mem q) = freed (mem q) ++ l ∧
    NoDup (allocated (mem q)) ∧
    (∀ a, a ∈ allocated (mem q) → (a < next_addr (mem q))%positive).

End Queue.
End UnboundedLockFreeQueue.

(** ** Sample states

    [uq_stopped]: a fresh [UnboundedLockFreeQueue<Z, 2>] with the flag set.
    [uq_fresh]: a fresh [UnboundedLockFreeQueue<Z, 3>].
    [uq_stalled]: an [UnboundedLockFreeQueue<Z, 1>] whose producer has
    linked block 2 and not yet written into it, and whose consumer has
    drained block 1.
    [uq_full_tail]: an [UnboundedLockFreeQueue<Z, 1>] after one push, on a
    free store with room for two blocks.
    [uq_exhausted]: the same on a free store with room for one block. *)

Definition uq_stopped : @UnboundedLockFreeQueue.t Z :=
  UnboundedLockFreeQueue.mk 3 (Some 1%positive) (Some 1%positive) true
    (UnboundedLockFreeQueue.mkMemory
       {[ 1%positive := UnboundedLockFreeQueue.mkBlock 0 0 None [0; 0; 0] ]}
       2%positive 3 [1%positive] []).

Definition uq_fresh : @UnboundedLockFreeQueue.t Z :=
  UnboundedLockFreeQueue.mk 4 (Some 1%positive) (Some 1%positive) false
    (UnboundedLockFreeQueue.mkMemory
       {[ 1%positive := UnboundedLockFreeQueue.mkBlock 0 0 None [0; 0; 0; 0] ]}
       2%positive 2 [1%positive] []).

Definition uq_stalled : @UnboundedLockFreeQueue.t Z :=
  UnboundedLockFreeQueue.mk 2 (Some 1%positive) (Some 2%positive) false
    (UnboundedLockFreeQueue.mkMemory
       {[ 1%positive := UnboundedLockFreeQueue.mkBlock 1 1 (Some 2%positive) [7; 0];
          2%positive := UnboundedLockFreeQueue.mkBlock 0 0 None [0; 0] ]}
       3%positive 2 [1; 2]%positive []).

Definition uq_full_tail : @UnboundedLockFreeQueue.t Z :=
  UnboundedLockFreeQueue.mk 2 (Some 1%positive) (Some 1%positive) false
    (UnboundedLockFreeQueue.mkMemory
       {[ 1%positive := UnboundedLockFreeQueue.mkBlock 0 1 None [7; 0] ]}
       2%positive 2 [1%positive] []).

Definition uq_exhausted : @UnboundedLockFreeQueue.t Z :=
  UnboundedLockFreeQueue.mk 2 (Some 1%positive) (Some 1%positive) false
    (UnboundedLockFreeQueue.mkMemory
       {[ 1%positive := UnboundedLockFreeQueue.mkBlock 0 1 None [7; 0] ]}
       2%positive 1 [1%positive] []).

(** ** First-in first-out buffers

    The behaviour the queues are measured against.  A buffer is the list
    of the values it holds, oldest first.  [fifo_push] and [fifo_pop] are a
    buffer of at most [cap] values behind the interface of the two bounded
    queues. *)

Definition fifo_push {T : Type} (cap : Z) (xs : list T) (v : T) : option (bool * list T) :=
  if decide (Z.of_nat (length xs) < cap) then Some (true, xs ++ [v])
  else Some (false, xs).

Definition fifo_pop {T : Type} (xs : list T) (elem : T) : option (bool * T * list T) :=
  match xs with
  | [] => Some (false, elem, [])
  | x :: xs' => Some (true, x, xs')
  end.

(** A client of the unbounded queue: as [run], with the way each [push]
    ended in place of its flag. *)
Inductive uq_outcome (T : Type) : Type :=
| UPushed (c : completion bool)
| UPopped (ok : bool) (elem : T).
Arguments UPushed {T} c.
Arguments UPopped {T} ok elem.

Fixpoint uq_run {T : Type} (size : Z) (dflt : T) (q : UnboundedLockFreeQueue.t)
    (elem : T) (cs : list (call T))
  : option (list (uq_outcome T) * T * UnboundedLockFreeQueue.t) :=
  match cs with
  | [] => Some ([], elem, q)
  | Push v :: cs' =>
      '(c, q1) ← UnboundedLockFreeQueue.push size dflt q v;
      '(os, e2, q2) ← uq_run size dflt q1 elem cs';
      Some (UPushed c :: os, e2, q2)
  | Pop :: cs' =>
      '(b, e1, q1) ← UnboundedLockFreeQueue.pop q elem;
      '(os, e2, q2) ← uq_run size dflt q1 e1 cs';
      Some (UPopped b e1 :: os, e2, q2)
  end.

(** [fifo_trace xs elem cs os]: the outcomes [os] are those of an unbounded
    buffer holding [xs] on the calls [cs].  A [push] returns [true] and
    appends its value, or is left by [std::bad_alloc] and appends nothing;
    a [pop] returns the oldest value, or [false] with the out-parameter
    [elem] untouched when the buffer is empty. *)
Fixpoint fifo_trace {T : Type} (xs : list T) (elem : T) (cs : list (call T))
    (os : list (uq_outcome T)) : Prop :=
  match cs, os with
  | [], [] => True
  | Push v :: cs', UPushed c :: os' =>
      match c with
      | Returned true => fifo_trace (xs ++ [v]) elem cs' os'
      | Returned false => False
      | Thrown_bad_alloc => fifo_trace xs elem cs' os'
      end
  | Pop :: cs', UPopped b e :: os' =>
      match xs with
      | [] => b = false ∧ e = elem ∧ fifo_trace [] elem cs' os'
      | x :: xs' => b = true ∧ e = x ∧ fifo_trace xs' x cs' os'
      end
  | _, _ => False
  end.

(** The values an unbounded queue holds.  A block is read as the ring
    [ring b]; [block_holds bs a c] says that the block at [a] holds [c],
    and [later_block_holds] adds what is true of the blocks behind the
    head: the consumer has not touched them and the producer has published
    something in them.  [uq_holds q xs]: the chain of [q] is [h :: l], and
    [xs] is what its blocks hold, one after the other. *)
Definition ring {T : Type} (size : Z) (b : @UnboundedLockFreeQueue.MemoryBlock T)
  : @LockFreeQueue.t T :=
  LockFreeQueue.mk (size + 1) (UnboundedLockFreeQueue.reader b)
                   (UnboundedLockFreeQueue.writer b) (UnboundedLockFreeQueue.data b).

Definition block_holds {T : Type} (size : Z)
    (bs : gmap positive (@UnboundedLockFreeQueue.MemoryBlock T))
    (a : positive) (c : list T) : Prop :=
  ∃ b, bs !! a = Some b ∧ LockFreeQueue.represents size (ring size b) c.

Definition later_block_holds {T : Type} (size : Z)
    (bs : gmap positive (@UnboundedLockFreeQueue.MemoryBlock T))
    (a : positive) (c : list T) : Prop :=
  ∃ b, bs !! a = Some b ∧ UnboundedLockFreeQueue.reader b = 0 ∧ c ≠ [] ∧
       LockFreeQueue.represents size (ring size b) c.

Definition uq_holds {T : Type} (size : Z) (q : @UnboundedLockFreeQueue.t T)
    (xs : list T) : Prop :=
  UnboundedLockFreeQueue.inv size q ∧
  ∃ (h : positive) (l : list positive) (c : list T) (cs : list (list T)),
    UnboundedLockFreeQueue.allocated (UnboundedLockFreeQueue.mem q) =
      UnboundedLockFreeQueue.freed (UnboundedLockFreeQueue.mem q) ++ h :: l ∧
    block_holds size (UnboundedLockFreeQueue.blocks (UnboundedLockFreeQueue.mem q)) h c ∧
    Forall2 (later_block_holds size
               (UnboundedLockFreeQueue.blocks (UnboundedLockFreeQueue.mem q))) l cs ∧
    xs = c ++ concat cs.

(** The blocks behind the head: the consumer has not touched them, and
    those the producer has left are filled up to the last usable slot. *)
Definition uq_behind {T : Type} (size : Z) (q : @UnboundedLockFreeQueue.t T) : Prop :=
  ∀ a b,
    UnboundedLockFreeQueue.blocks (UnboundedLockFreeQueue.mem q) !! a = Some b →
    UnboundedLockFreeQueue.head q ≠ Some a →
    UnboundedLockFreeQueue.reader b = 0 ∧
    (UnboundedLockFreeQueue.next_block b ≠ None → UnboundedLockFreeQueue.writer b = size).

(** [producer_stalled q current_tail wr_pos next_pos]: the producer stands in
    [push] before the write of lines 117-118 with these locals, and the
    consumer has called [pop] any number of times since it came to stand
    there; [q] is the queue they share. *)
Inductive producer_stalled {T : Type} (size : Z) (dflt : T)
  : @UnboundedLockFreeQueue.t T → option positive → Z → Z → Prop :=
| stalled_prepare q q' ct wr_pos next_pos :
    UnboundedLockFreeQueue.reachable size dflt q →
    UnboundedLockFreeQueue.push_prepare size dflt q
      = Some (UnboundedLockFreeQueue.PushWrite q' ct wr_pos next_pos) →
    producer_stalled size dflt q' ct wr_pos next_pos
| stalled_pop q e b e' q' ct wr_pos next_pos :
    producer_stalled size dflt q ct wr_pos next_pos →
    UnboundedLockFreeQueue.pop q e = Some (b, e', q') →
    producer_stalled size dflt q' ct wr_pos next_pos.

(** The number of values a trace leaves in the queue: the pushes that
    returned [true] less the pops that returned [true]. *)
Fixpoint queued {T : Type} (os : list (uq_outcome T)) : Z :=
  match os with
  | [] => 0
  | UPushed (Returned true) :: os' => 1 + queued os'
  | UPopped true _ :: os' => queued os' - 1
  | _ :: os' => queued os'
  end.

(** Case analysis of a hypothesis [H : e = Some _] along the binds, tests
    and matches of [e]. *)
Ltac option_inv H :=
  repeat match type of H with
  | mbind _ ?o = Some _ =>
      let E := fresh "E" in destruct o eqn:E; simpl in H; [|discriminate H]
  | (if decide ?P then _ else _) = Some _ => destruct (decide P); simpl in H
  | match ?x with _ => _ end = Some _ =>
      let E := fresh "E" in destruct x eqn:E; simpl in H; try discriminate H
  end.

(** * Properties *)

(** ** Arithmetic of [std::size_t] and of ring indices *)

Lemma size_t_wrap_small (x : Z) : 0 ≤ x < 2 ^ SIZE_WIDTH → size_t_wrap x = x.
Proof. intros Hx. unfold size_t_wrap. by apply Z.mod_small. Qed.

Lemma size_t_rem_Some (a b : Z) : b ≠ 0 → size_t_rem a b = Some (a mod b).
Proof. intros Hb. unfold size_t_rem. by rewrite decide_False. Qed.

(** One step forward on a ring of [c] slots. *)
Lemma ring_succ (c i : Z) :
  0 ≤ i < c → (i + 1) mod c = if decide (i + 1 = c) then 0 else i + 1.
Proof.
  intros Hi. case_decide as Hc.
  - rewrite Hc. apply Z.mod_same. lia.
  - apply Z.mod_small. lia.
Qed.

(** Distance from [r] forward to [w] on a ring of [c] slots. *)
Lemma ring_dist (c r w : Z) :
  0 ≤ r < c → 0 ≤ w < c →
  (w - r) mod c = if decide (r ≤ w) then w - r else w - r + c.
Proof.
  intros Hr Hw. case_decide as Hc.
  - apply Z.mod_small. lia.
  - symmetry. apply (Z.mod_unique _ _ (-1)); lia.
Qed.

(** The slot [k] steps after [r] on a ring of [c] slots. *)
Lemma ring_add (c r k : Z) :
  0 ≤ r < c → 0 ≤ k < c →
  (r + k) mod c = if decide (r + k < c) then r + k else r + k - c.
Proof.
  intros Hr Hk. case_decide as Hc.
  - apply Z.mod_small. lia.
  - symmetry. apply (Z.mod_unique _ _ 1); lia.
Qed.

Lemma ring_add_dist (c r w : Z) :
  0 ≤ r < c → 0 ≤ w < c → (r + (w - r) mod c) mod c = w.
Proof.
  intros Hr Hw. rewrite Z.add_mod_idemp_r by lia.
  replace (r + (w - r)) with w by lia. apply Z.mod_small. lia.
Qed.

Lemma ring_add_inj (c r i j : Z) :
  0 ≤ r < c → 0 ≤ i < c → 0 ≤ j < c →
  (r + i) mod c = (r + j) mod c → i = j.
Proof.
  intros Hr Hi Hj. rewrite !ring_add by lia. repeat case_decide; lia.
Qed.

Lemma array_get_Some {T : Type} (a : list T) (i : Z) :
  0 ≤ i < Z.of_nat (length a) → is_Some (array_get a i).
Proof.
  intros Hi. unfold array_get. rewrite decide_True by lia.
  apply lookup_lt_is_Some. lia.
Qed.

Lemma array_set_Some {T : Type} (a : list T) (i : Z) (v : T) :
  0 ≤ i < Z.of_nat (length a) → array_set a i v = Some (<[Z.to_nat i := v]> a).
Proof. intros Hi. unfold array_set. by rewrite decide_True. Qed.

(** ** [LockFreeQueue]: the ring buffer *)

Section LockFreeQueue_facts.
Import LockFreeQueue.
Context {T : Type}.
Variable size : Z.
Variable dflt : T.
Hypothesis size_range : 0 ≤ size < 2 ^ SIZE_WIDTH - 1.

Lemma lfq_wf_make : wf size (make size dflt).
Proof.
  unfold wf, make; simpl. rewrite size_t_wrap_small by lia.
  rewrite length_replicate. lia.
Qed.

(** On a well-formed state [push] is defined and is this function. *)
Lemma lfq_push_eq (q : t) (v : T) :
  wf size q →
  push q v =
    if decide ((writer q + 1) mod (size + 1) = reader q) then Some (false, q)
    else Some (true, mk (capacity q) (reader q) ((writer q + 1) mod (size + 1))
                        (<[Z.to_nat (writer q) := v]> (data q))).
Proof.
  intros (Hc & Hl & Hr & Hw). unfold push.
  rewrite size_t_wrap_small by lia.
  rewrite size_t_rem_Some by lia. simpl. rewrite Hc.
  case_decide; [done|].
  rewrite array_set_Some by lia. done.
Qed.

(** On a well-formed state [pop] is defined and is this function. *)
Lemma lfq_pop_eq (q : t) (e : T) :
  wf size q →
  ∃ x, data q !! Z.to_nat (reader q) = Some x ∧
    pop q e =
      if decide (reader q = writer q) then Some (false, e, q)
      else Some (true, x, mk (capacity q) ((reader q + 1) mod (size + 1))
                             (writer q) (data q)).
Proof.
  intros (Hc & Hl & Hr & Hw).
  destruct (lookup_lt_is_Some_2 (data q) (Z.to_nat (reader q))) as [x Hx]; [lia|].
  exists x. split; [done|]. unfold pop.
  case_decide; [done|].
  unfold array_get. rewrite decide_True by lia. rewrite Hx. simpl.
  rewrite size_t_wrap_small by lia.
  rewrite size_t_rem_Some by lia. simpl. by rewrite Hc.
Qed.

Lemma lfq_push_wf (q q' : t) (v : T) (b : bool) :
  wf size q → push q v = Some (b, q') → wf size q'.
Proof.
  intros Hwf. rewrite (lfq_push_eq _ _ Hwf).
  destruct Hwf as (Hc & Hl & Hr & Hw).
  case_decide; intros [= <- <-]; [done|].
  unfold wf; simpl. rewrite length_insert.
  pose proof (Z.mod_pos_bound (writer q + 1) (size + 1)). lia.
Qed.

Lemma lfq_pop_wf (q q' : t) (e e' : T) (b : bool) :
  wf size q → pop q e = Some (b, e', q') → wf size q'.
Proof.
  intros Hwf. destruct (lfq_pop_eq q e Hwf) as (x & _ & ->).
  destruct Hwf as (Hc & Hl & Hr & Hw).
  case_decide; intros [= <- <- <-]; [done|].
  unfold wf; simpl.
  pose proof (Z.mod_pos_bound (reader q + 1) (size + 1)). lia.
Qed.

Lemma lfq_reachable_wf (q : t) : reachable size dflt q → wf size q.
Proof.
  induction 1 as [|q v b q' _ IH Hp|q e b e' q' _ IH Hp].
  - apply lfq_wf_make.
  - by eapply lfq_push_wf.
  - by eapply lfq_pop_wf.
Qed.

Lemma lfq_live_range (q : @t T) : wf size q → 0 ≤ live q ≤ size.
Proof.
  intros (Hc & _). unfold live. rewrite Hc.
  pose proof (Z.mod_pos_bound (writer q - reader q) (size + 1)). lia.
Qed.

(** Full and empty, read off the number of live elements. *)
Lemma lfq_full_iff (q : @t T) :
  wf size q → (writer q + 1) mod (size + 1) = reader q ↔ live q = size.
Proof.
  intros (Hc & Hl & Hr & Hw). unfold live. rewrite Hc.
  rewrite ring_succ, ring_dist by lia.
  repeat case_decide; lia.
Qed.

Lemma lfq_empty_iff (q : @t T) : wf size q → reader q = writer q ↔ live q = 0.
Proof.
  intros (Hc & Hl & Hr & Hw). unfold live. rewrite Hc.
  rewrite ring_dist by lia. case_decide; lia.
Qed.

Lemma lfq_push_live (q q' : t) (v : T) (b : bool) :
  wf size q → push q v = Some (b, q') →
  live q' = live q + (if b then 1 else 0).
Proof.
  intros Hwf. rewrite (lfq_push_eq _ _ Hwf).
  destruct Hwf as (Hc & Hl & Hr & Hw).
  case_decide as Hfull; intros [= <- <-]; [lia|].
  unfold live; simpl. rewrite Hc. revert Hfull.
  rewrite ring_succ by lia. case_decide.
  - intros. rewrite !ring_dist by lia. repeat case_decide; lia.
  - intros. rewrite !ring_dist by lia. repeat case_decide; lia.
Qed.

Lemma lfq_pop_live (q q' : t) (e e' : T) (b : bool) :
  wf size q → pop q e = Some (b, e', q') →
  live q' = live q - (if b then 1 else 0).
Proof.
  intros Hwf. destruct (lfq_pop_eq q e Hwf) as (x & _ & ->).
  destruct Hwf as (Hc & Hl & Hr & Hw).
  case_decide as Hempty; intros [= <- <- <-]; [lia|].
  unfold live; simpl. rewrite Hc.
  rewrite ring_succ by lia. case_decide.
  - rewrite !ring_dist by lia. repeat case_decide; lia.
  - rewrite !ring_dist by lia. repeat case_decide; lia.
Qed.

(** *** The ring buffer holds a list *)

Lemma lfq_make_represents : represents size (make size dflt) [].
Proof.
  split; [apply lfq_wf_make|]. split.
  - unfold live, make; simpl. by rewrite Z.mod_0_l by (rewrite size_t_wrap_small; lia).
  - intros i x Hi. by rewrite lookup_nil in Hi.
Qed.

Lemma lfq_push_represents (q : t) (l : list T) (v : T) :
  represents size q l → Z.of_nat (length l) < size →
  ∃ q', push q v = Some (true, q') ∧ represents size q' (l ++ [v]).
Proof.
  intros (Hwf & Hlen & Hdata) Hroom.
  pose proof (lfq_push_eq q v Hwf) as Hpush.
  rewrite decide_False in Hpush by (rewrite lfq_full_iff by done; lia).
  eexists. split; [exact Hpush|].
  pose proof (lfq_push_wf _ _ _ _ Hwf Hpush) as Hwf'.
  pose proof (lfq_push_live _ _ _ _ Hwf Hpush) as Hlive'.
  split; [done|]. split.
  - rewrite Hlive', length_app, Nat2Z.inj_add, Hlen. reflexivity.
  - destruct Hwf as (Hc & Hl & Hr & Hw).
    intros i x Hi; simpl. rewrite Hc.
    destruct (decide (i < length l)%nat) as [Hlt|Hge].
    + rewrite lookup_app_l in Hi by done.
      rewrite list_lookup_insert_ne; [rewrite <- Hc; by apply Hdata|].
      intros Heq. apply Z2Nat.inj in Heq; [|lia|apply Z.mod_pos_bound; lia].
      rewrite <- (ring_add_dist (size + 1) (reader q) (writer q)) in Heq at 1 by lia.
      apply ring_add_inj in Heq; [|lia| |lia].
      * unfold live in Hlen. rewrite Hc in Hlen. lia.
      * apply Z.mod_pos_bound. lia.
    + apply lookup_lt_Some in Hi as Hi'. rewrite length_app in Hi'; simpl in Hi'.
      assert (i = length l) as -> by lia.
      rewrite lookup_app_r, Nat.sub_diag in Hi by lia. injection Hi as <-.
      rewrite Hlen. unfold live. rewrite Hc, ring_add_dist by lia.
      apply list_lookup_insert_eq. lia.
Qed.

Lemma lfq_push_full (q : t) (l : list T) (v : T) :
  represents size q l → Z.of_nat (length l) = size → push q v = Some (false, q).
Proof.
  intros (Hwf & Hlen & _) Hfull. rewrite (lfq_push_eq q v Hwf).
  apply decide_True. rewrite lfq_full_iff by done. lia.
Qed.

Lemma lfq_pop_represents (q : t) (x : T) (l : list T) (e : T) :
  represents size q (x :: l) →
  ∃ q', pop q e = Some (true, x, q') ∧ represents size q' l.
Proof.
  intros (Hwf & Hlen & Hdata).
  destruct (lfq_pop_eq q e Hwf) as (x' & Hx' & Hpop).
  simpl in Hlen.
  rewrite decide_False in Hpop by (rewrite lfq_empty_iff by done; lia).
  pose proof (lfq_pop_wf _ _ _ _ _ Hwf Hpop) as Hwf'.
  pose proof (lfq_pop_live _ _ _ _ _ Hwf Hpop) as Hlive'.
  change (if true then 1 else 0) with 1 in Hlive'.
  destruct Hwf as (Hc & Hl & Hr & Hw).
  specialize (Hdata 0%nat x eq_refl) as H0.
  rewrite Hc, Z.add_0_r, Z.mod_small in H0 by lia.
  assert (x' = x) as -> by congruence.
  eexists. split; [exact Hpop|].
  split; [done|]. split; [lia|].
  intros i y Hi; simpl. rewrite Hc, Z.add_mod_idemp_l by lia.
  specialize (Hdata (S i) y Hi). rewrite Hc in Hdata.
  by replace (reader q + 1 + Z.of_nat i) with (reader q + Z.of_nat (S i)) by lia.
Qed.

Lemma lfq_pop_empty (q : t) (e : T) :
  represents size q [] → pop q e = Some (false, e, q).
Proof.
  intros (Hwf & Hlen & _). destruct (lfq_pop_eq q e Hwf) as (x & _ & ->).
  apply decide_True. rewrite lfq_empty_iff by done. simpl in Hlen. lia.
Qed.

Lemma lfq_push_all_represents (vs : list T) (q : t) (l : list T) :
  represents size q l → Z.of_nat (length l + length vs) ≤ size →
  ∃ q', push_all q vs = Some (replicate (length vs) true, q') ∧
        represents size q' (l ++ vs).
Proof.
  revert q l. induction vs as [|v vs IH]; intros q l Hrep Hroom; simpl.
  - exists q. by rewrite app_nil_r.
  - destruct (lfq_push_represents q l v Hrep) as (q1 & Hp1 & Hrep1); [simpl in Hroom; lia|].
    destruct (IH q1 (l ++ [v]) Hrep1) as (q2 & Hp2 & Hrep2).
    { rewrite length_app; simpl in *. lia. }
    exists q2. rewrite Hp1; simpl. rewrite Hp2; simpl.
    by rewrite <- app_assoc in Hrep2.
Qed.

Lemma lfq_pop_n_represents (vs : list T) (q : t) (l : list T) (e : T) :
  represents size q (vs ++ l) →
  ∃ q', pop_n q e (length vs) = Some ((λ v, (true, v)) <$> vs, q') ∧
        represents size q' l.
Proof.
  revert q e. induction vs as [|v vs IH]; intros q e Hrep; simpl.
  - by exists q.
  - destruct (lfq_pop_represents q v (vs ++ l) e Hrep) as (q1 & Hp1 & Hrep1).
    destruct (IH q1 v Hrep1) as (q2 & Hp2 & Hrep2).
    exists q2. rewrite Hp1; simpl. by rewrite Hp2.
Qed.

(** Every run of a client on a well-formed ring is defined. *)
Lemma lfq_run_defined (cs : list (call T)) (q : t) (e : T) :
  wf size q → is_Some (run push pop q e cs).
Proof.
  revert q e. induction cs as [|[v|] cs IH]; intros q e Hwf; simpl; [by eexists| |].
  - pose proof (lfq_push_eq q v Hwf) as Hp.
    destruct (push q v) as [[b q1]|] eqn:Hq1; [|by case_decide].
    simpl. destruct (IH q1 e) as [[[os e2] q2] ->]; [by eapply lfq_push_wf|].
    by eexists.
  - destruct (lfq_pop_eq q e Hwf) as (x & _ & Hp).
    destruct (pop q e) as [[[b e1] q1]|] eqn:Hq1; [|by case_decide].
    simpl. destruct (IH q1 e1) as [[[os e2] q2] ->]; [by eapply lfq_pop_wf|].
    by eexists.
Qed.

(** *** FIFO order, capacity bound and occupancy *)

(** C1 (FIFO order).  On a freshly constructed [LockFreeQueue<T, size>],
    pushing [N <= size] values [vs] with no pop in between succeeds every
    time, and [N] pops afterwards each return [true] and hand back the
    values of [vs] in the order they were pushed. *)
Theorem lfq_fifo_order (vs : list T) (e : T) :
  Z.of_nat (length vs) ≤ size →
  ∃ q1 q2,
    push_all (make size dflt) vs = Some (replicate (length vs) true, q1) ∧
    pop_n q1 e (length vs) = Some ((λ v, (true, v)) <$> vs, q2).
Proof.
  intros Hn.
  destruct (lfq_push_all_represents vs _ [] lfq_make_represents) as (q1 & Hpush & Hrep1).
  { simpl. lia. }
  simpl in Hrep1. rewrite <- (app_nil_r vs) in Hrep1.
  destruct (lfq_pop_n_represents vs q1 [] e Hrep1) as (q2 & Hpop & _).
  by exists q1, q2.
Qed.

(** C2 (capacity bound).  On a fresh [LockFreeQueue<T, 3>] three pushes
    return [true]; a fourth returns [false] and its resulting state is the
    state before the call: the slots still hold the three values and the
    reader and writer indices are still 0 and 3. *)
Theorem lfq_capacity_bound (v1 v2 v3 v4 : T) :
  ∃ q3,
    push_all (make 3 dflt) [v1; v2; v3] = Some ([true; true; true], q3) ∧
    push q3 v4 = Some (false, q3) ∧
    data q3 = [v1; v2; v3; dflt] ∧ reader q3 = 0 ∧ writer q3 = 3.
Proof. exists (mk 4 0 3 [v1; v2; v3; dflt]). by vm_compute. Qed.

(** C7 (occupancy invariant).  In every state reachable from the fresh
    queue the number of live elements [(writer - reader) mod (size + 1)]
    lies in [[0, size]].  Every [push] is defined there and returns [false]
    exactly when the writer index advanced by one modulo [size + 1] equals
    the reader index; every [pop] is defined and returns [false] exactly
    when the two indices are equal.  After either call the count is again
    in [[0, size]]: it went up by one after a successful [push], down by
    one after a successful [pop], and is the same after a failed call. *)
Theorem lfq_occupancy_invariant (q : t) :
  reachable size dflt q →
  0 ≤ live q ≤ size ∧
  (∀ v, ∃ b q', push q v = Some (b, q') ∧
     (b = false ↔ (writer q + 1) mod (size + 1) = reader q) ∧
     0 ≤ live q' ≤ size ∧ live q' = live q + (if b then 1 else 0)) ∧
  (∀ e, ∃ b e' q', pop q e = Some (b, e', q') ∧
     (b = false ↔ writer q = reader q) ∧
     0 ≤ live q' ≤ size ∧ live q' = live q - (if b then 1 else 0)).
Proof.
  intros Hwf%lfq_reachable_wf. split; [by apply lfq_live_range|]. split.
  - intros v. pose proof (lfq_push_eq q v Hwf) as Hpush.
    destruct (decide ((writer q + 1) mod (size + 1) = reader q)) as [Hfull|Hfull];
      (eexists _, _; split; [exact Hpush|]);
      (split; [naive_solver|]);
      (split; [eapply lfq_live_range, lfq_push_wf, Hpush; exact Hwf|]);
      exact (lfq_push_live _ _ _ _ Hwf Hpush).
  - intros e. destruct (lfq_pop_eq q e Hwf) as (x & _ & Hpop).
    destruct (decide (reader q = writer q)) as [Hempty|Hempty];
      (eexists _, _, _; split; [exact Hpop|]);
      (split; [naive_solver|]);
      (split; [eapply lfq_live_range, lfq_pop_wf, Hpop; exact Hwf|]);
      exact (lfq_pop_live _ _ _ _ _ Hwf Hpop).
Qed.

End LockFreeQueue_facts.

Lemma lfq_fifo_order_witness :
  ∃ q1 q2,
    LockFreeQueue.push_all (LockFreeQueue.make 3 0) [10; 20; 30]
      = Some (replicate 3 true, q1) ∧
    LockFreeQueue.pop_n q1 99 3 = Some ((λ v, (true, v)) <$> [10; 20; 30], q2).
Proof.
  apply (lfq_fifo_order 3 0); [by vm_compute | simpl; lia].
Defined.

Lemma lfq_occupancy_invariant_witness :
  0 ≤ LockFreeQueue.live (LockFreeQueue.make 3 7) ≤ 3 ∧
  (∀ v, ∃ b q', LockFreeQueue.push (LockFreeQueue.make 3 7) v = Some (b, q') ∧
     (b = false ↔ (0 + 1) mod (3 + 1) = 0) ∧
     0 ≤ LockFreeQueue.live q' ≤ 3 ∧
     LockFreeQueue.live q' = LockFreeQueue.live (LockFreeQueue.make 3 7) + (if b then 1 else 0)) ∧
  (∀ e, ∃ b e' q', LockFreeQueue.pop (LockFreeQueue.make 3 7) e = Some (b, e', q') ∧
     (b = false ↔ 0 = 0) ∧
     0 ≤ LockFreeQueue.live q' ≤ 3 ∧
     LockFreeQueue.live q' = LockFreeQueue.live (LockFreeQueue.make 3 7) - (if b then 1 else 0)).
Proof.
  apply (lfq_occupancy_invariant 3 7); [by vm_compute | apply LockFreeQueue.reach_make].
Defined.

(** ** [MutexedQueue] against [LockFreeQueue] *)

Section MutexedQueue_facts.
Context {T : Type}.
Variable size : Z.
Variable dflt : T.

Lemma mq_erase_make :
  erase_lock (MutexedQueue.make size dflt) = LockFreeQueue.make size dflt ∧
  MutexedQueue.lock (MutexedQueue.make size dflt) = false.
Proof. done. Qed.

(** With the mutex free, [push] does to the ring what [LockFreeQueue::push]
    does, returns the same flag and leaves the mutex free; it is undefined
    exactly when the other is. *)
Lemma mq_push_sim (m : MutexedQueue.t) (v : T) :
  MutexedQueue.lock m = false →
  match MutexedQueue.push m v with
  | Some (b, m') =>
      LockFreeQueue.push (erase_lock m) v = Some (b, erase_lock m') ∧
      MutexedQueue.lock m' = false
  | None => LockFreeQueue.push (erase_lock m) v = None
  end.
Proof.
  destruct m as [d c l r w]; simpl; intros ->.
  unfold MutexedQueue.push, LockFreeQueue.push, erase_lock; simpl.
  destruct (size_t_rem (size_t_wrap (w + 1)) c) as [next_pos|]; simpl; [|done].
  case_decide; [done|].
  destruct (array_set d w v) as [d'|]; simpl; done.
Qed.

Lemma mq_pop_sim (m : MutexedQueue.t) (e : T) :
  MutexedQueue.lock m = false →
  match MutexedQueue.pop m e with
  | Some (b, e', m') =>
      LockFreeQueue.pop (erase_lock m) e = Some (b, e', erase_lock m') ∧
      MutexedQueue.lock m' = false
  | None => LockFreeQueue.pop (erase_lock m) e = None
  end.
Proof.
  destruct m as [d c l r w]; simpl; intros ->.
  unfold MutexedQueue.pop, LockFreeQueue.pop, erase_lock; simpl.
  case_decide; [done|].
  destruct (array_get d r) as [x|]; simpl; [|done].
  destruct (size_t_rem (size_t_wrap (r + 1)) c) as [next_pos|]; simpl; done.
Qed.

Lemma mq_run_sim (cs : list (call T)) (m : MutexedQueue.t) (e : T) :
  MutexedQueue.lock m = false →
  fst <$> run MutexedQueue.push MutexedQueue.pop m e cs =
  fst <$> run LockFreeQueue.push LockFreeQueue.pop (erase_lock m) e cs.
Proof.
  revert m e. induction cs as [|[v|] cs IH]; intros m e Hfree; simpl; [done| |].
  - pose proof (mq_push_sim m v Hfree) as Hsim.
    destruct (MutexedQueue.push m v) as [[b m']|]; simpl.
    + destruct Hsim as [-> Hfree']; simpl.
      specialize (IH m' e Hfree').
      destruct (run MutexedQueue.push MutexedQueue.pop m' e cs) as [[[os e2] m2]|],
               (run LockFreeQueue.push LockFreeQueue.pop (erase_lock m') e cs) as [[[os' e2'] l2]|];
        simpl in *; congruence.
    + by rewrite Hsim.
  - pose proof (mq_pop_sim m e Hfree) as Hsim.
    destruct (MutexedQueue.pop m e) as [[[b e1] m']|]; simpl.
    + destruct Hsim as [-> Hfree']; simpl.
      specialize (IH m' e1 Hfree').
      destruct (run MutexedQueue.push MutexedQueue.pop m' e1 cs) as [[[os e2] m2]|],
               (run LockFreeQueue.push LockFreeQueue.pop (erase_lock m') e1 cs) as [[[os' e2'] l2]|];
        simpl in *; congruence.
    + by rewrite Hsim.
Qed.

(** C8 (the baseline queue).  Run from their initial states on the same
    sequence of [push] and [pop] calls, [MutexedQueue<T, size>] and
    [LockFreeQueue<T, size>] produce the same trace: the same flag for every
    call and the same value in the out-parameter after every [pop] (and the
    one run is undefined exactly when the other is). *)
Theorem mq_same_as_lfq (cs : list (call T)) (e : T) :
  fst <$> run MutexedQueue.push MutexedQueue.pop (MutexedQueue.make size dflt) e cs =
  fst <$> run LockFreeQueue.push LockFreeQueue.pop (LockFreeQueue.make size dflt) e cs.
Proof. by apply mq_run_sim. Qed.

End MutexedQueue_facts.

(** ** [UnboundedLockFreeQueue]: the chain of blocks *)

Section UnboundedLockFreeQueue_facts.
Import UnboundedLockFreeQueue.
Context {T : Type}.
Variable size : Z.
Variable dflt : T.

(** *** The free store *)

Lemma load_Some (m : memory) (p : ptr) (b : @MemoryBlock T) :
  load m p = Some b ↔ ∃ a, p = Some a ∧ blocks m !! a = Some b.
Proof.
  unfold load. destruct p as [a|]; simpl.
  - split; [by exists a|]. by intros (? & [= <-] & ?).
  - split; [done|]. by intros (? & [=] & _).
Qed.

Lemma update_Some (m m' : memory) (p : ptr) (f : @MemoryBlock T → MemoryBlock) :
  update m p f = Some m' ↔
  ∃ a b, p = Some a ∧ blocks m !! a = Some b ∧
         m' = set_blocks (<[a := f b]> (blocks m)) m.
Proof.
  unfold update. destruct p as [a|]; simpl.
  - destruct (blocks m !! a) as [b|] eqn:Ha; simpl.
    + split; [intros [= <-]; by exists a, b|].
      intros (a' & b' & [= <-] & Hb & ->). congruence.
    + split; [done|]. intros (a' & b' & [= <-] & Hb & _). congruence.
  - split; [done|]. by intros (? & ? & [=] & _).
Qed.

Lemma mem_delete_Some (m m' : @memory T) (a : addr) :
  mem_delete m (Some a) = Some m' ↔
  is_Some (blocks m !! a) ∧
  m' = mkMemory (delete a (blocks m)) (next_addr m) (quota m) (allocated m)
                (freed m ++ [a]).
Proof.
  unfold mem_delete. destruct (blocks m !! a) as [b|]; simpl.
  - split; [intros [= <-]; eauto|]. by intros [_ ->].
  - split; [done|]. by intros [[? [=]] _].
Qed.

(** *** [push] and [pop], case by case *)

Lemma mem_new_fail (m : memory) :
  ¬ (base.size (blocks m) < quota m)%nat → mem_new size dflt m = Thrown_bad_alloc.
Proof. intros Hq. unfold mem_new. by rewrite decide_False. Qed.

Lemma mem_new_ok (m : memory) :
  (base.size (blocks m) < quota m)%nat →
  mem_new size dflt m =
    Returned
      (Some (next_addr m),
       mkMemory (<[next_addr m := MemoryBlock_make size dflt]> (blocks m))
                (Pos.succ (next_addr m)) (quota m)
                (allocated m ++ [next_addr m]) (freed m)).
Proof. intros Hq. unfold mem_new. by rewrite decide_True. Qed.

(** The value of the [new]-expression is never [nullptr]. *)
Lemma mem_new_not_null (m m' : memory) (p : ptr) :
  mem_new size dflt m = Returned (p, m') → p ≠ None.
Proof. unfold mem_new. case_decide; [|done]. by intros [= <- <-]. Qed.

Lemma push_write_eq (q : t) (a : addr) (blk : MemoryBlock) (wr_pos next_pos : Z) (v : T) :
  blocks (mem q) !! a = Some blk →
  0 ≤ wr_pos < Z.of_nat (length (data blk)) →
  push_write q (Some a) wr_pos next_pos v =
    Some (Returned true, with_block a (written wr_pos next_pos v blk) q).
Proof.
  intros Ha Hwr. unfold push_write, load, update; simpl.
  rewrite Ha; simpl. rewrite array_set_Some by done; simpl.
  rewrite lookup_insert_eq; simpl.
  unfold with_block, set_blocks; simpl. by rewrite insert_insert_eq.
Qed.

Lemma pop_read_eq (q : t) (a : addr) (blk : MemoryBlock) (rd_pos : Z) (x : T) :
  blocks (mem q) !! a = Some blk →
  array_get (data blk) rd_pos = Some x →
  capacity q ≠ 0 →
  pop_read q (Some a) rd_pos =
    Some (true, x,
          with_block a (set_reader (size_t_wrap (rd_pos + 1) mod capacity q) blk) q).
Proof.
  intros Ha Hx Hc. unfold pop_read, load, update; simpl.
  rewrite Ha; simpl. rewrite Hx; simpl.
  by rewrite size_t_rem_Some by done.
Qed.

Section push_cases.
Variables (q : @t T) (v : T) (t : addr) (tb : @MemoryBlock T).
Hypothesis Hstop : stop q = false.
Hypothesis Htail : tail q = Some t.
Hypothesis Htb : blocks (mem q) !! t = Some tb.
Hypothesis Hcap : capacity q ≠ 0.

(** The tail block has room. *)
Lemma uq_push_room :
  size_t_wrap (writer tb + 1) mod capacity q ≠ reader tb →
  0 ≤ writer tb < Z.of_nat (length (data tb)) →
  push size dflt q v =
    Some (Returned true, with_block t
       (written (writer tb) (size_t_wrap (writer tb + 1) mod capacity q) v tb) q).
Proof.
  intros Hroom Hwr. unfold push, push_prepare, load.
  rewrite Hstop, Htail; simpl. rewrite Htb; simpl.
  rewrite (size_t_rem_Some (size_t_wrap (writer tb + 1))) by done; simpl.
  rewrite decide_False by done; simpl.
  by apply push_write_eq.
Qed.

(** The tail block is full and the free store is exhausted: [new] throws
    and the exception leaves [push]. *)
Lemma uq_push_full_nomem :
  size_t_wrap (writer tb + 1) mod capacity q = reader tb →
  ¬ (base.size (blocks (mem q)) < quota (mem q))%nat →
  push size dflt q v = Some (Thrown_bad_alloc, q).
Proof.
  intros Hfull Hmem. unfold push, push_prepare, load.
  rewrite Hstop, Htail; simpl. rewrite Htb; simpl.
  rewrite (size_t_rem_Some (size_t_wrap (writer tb + 1))) by done; simpl.
  rewrite decide_True by done. by rewrite mem_new_fail by done.
Qed.

(** The tail block is full and [new] yields a block at a fresh address. *)
Lemma uq_push_full_alloc :
  size_t_wrap (writer tb + 1) mod capacity q = reader tb →
  (base.size (blocks (mem q)) < quota (mem q))%nat →
  blocks (mem q) !! next_addr (mem q) = None →
  0 < size_t_wrap (size + 1) →
  let a := next_addr (mem q) in
  push size dflt q v =
    Some (Returned true,
      with_block a (written 0 (size_t_wrap (0 + 1) mod capacity q) v
                            (MemoryBlock_make size dflt))
        (set_tail (Some a)
           (with_block t (set_next_block (Some a) tb) (with_new_block size dflt q)))).
Proof.
  intros Hfull Hmem Hfresh Hsize a. unfold push, push_prepare, load.
  rewrite Hstop, Htail; simpl. rewrite Htb; simpl.
  rewrite (size_t_rem_Some (size_t_wrap (writer tb + 1))) by done; simpl.
  rewrite decide_True by done. rewrite mem_new_ok by done; simpl.
  assert (t ≠ a) as Hne by (intros ->; unfold a in *; congruence).
  unfold push_link, update; simpl. rewrite lookup_insert_ne, Htb by done; simpl.
  rewrite size_t_rem_Some by done; simpl.
  rewrite push_write_eq with (blk := MemoryBlock_make size dflt); [done| |].
  - simpl. rewrite lookup_insert_ne by done. apply lookup_insert_eq.
  - simpl. rewrite length_replicate. lia.
Qed.

End push_cases.

Section pop_cases.
Variables (q : @t T) (e : T) (h : addr) (hb : @MemoryBlock T).
Hypothesis Hstop : stop q = false.
Hypothesis Hhead : head q = Some h.
Hypothesis Hhb : blocks (mem q) !! h = Some hb.
Hypothesis Hcap : capacity q ≠ 0.

(** The head block holds an element. *)
Lemma uq_pop_read (x : T) :
  reader hb ≠ writer hb →
  array_get (data hb) (reader hb) = Some x →
  pop q e =
    Some (true, x,
          with_block h (set_reader (size_t_wrap (reader hb + 1) mod capacity q) hb) q).
Proof.
  intros Hne Hx. unfold pop, load.
  rewrite Hstop, Hhead; simpl. rewrite Hhb; simpl.
  rewrite decide_False by done. by apply pop_read_eq.
Qed.

(** The head block is drained and has no successor. *)
Lemma uq_pop_empty :
  reader hb = writer hb → next_block hb = None →
  pop q e = Some (false, e, q).
Proof.
  intros Heq Hnext. unfold pop, load.
  rewrite Hstop, Hhead; simpl. rewrite Hhb; simpl.
  rewrite decide_True by done. by rewrite decide_True by done.
Qed.

(** The head block is drained and its successor has nothing published. *)
Lemma uq_pop_advance_empty (n : addr) (nb : MemoryBlock) :
  reader hb = writer hb → next_block hb = Some n →
  n ≠ h → blocks (mem q) !! n = Some nb →
  writer nb = 0 →
  pop q e = Some (false, e, without_block h (set_head (Some n) q)).
Proof.
  intros Heq Hnext Hne Hnb Hw. unfold pop, load.
  rewrite Hstop, Hhead; simpl. rewrite Hhb; simpl.
  rewrite decide_True by done. rewrite Hnext, decide_False by done; simpl.
  rewrite lookup_delete_ne, Hnb by done; simpl.
  by rewrite decide_True by done.
Qed.

(** The head block is drained and its successor holds an element. *)
Lemma uq_pop_advance_read (n : addr) (nb : MemoryBlock) (x : T) :
  reader hb = writer hb → next_block hb = Some n →
  n ≠ h → blocks (mem q) !! n = Some nb →
  writer nb ≠ 0 →
  array_get (data nb) 0 = Some x →
  pop q e =
    Some (true, x,
          with_block n (set_reader (size_t_wrap (0 + 1) mod capacity q) nb)
            (without_block h (set_head (Some n) q))).
Proof.
  intros Heq Hnext Hne Hnb Hw Hx. unfold pop, load.
  rewrite Hstop, Hhead; simpl. rewrite Hhb; simpl.
  rewrite decide_True by done. rewrite Hnext, decide_False by done; simpl.
  rewrite lookup_delete_ne, Hnb by done; simpl.
  rewrite decide_False by done.
  rewrite pop_read_eq with (blk := nb) (x := x); [done| |done|done].
  simpl. by rewrite lookup_delete_ne.
Qed.

End pop_cases.

(** *** Shutdown *)

(** Neither [push] nor [pop] writes the flag. *)
Lemma uq_push_link_stop (q : @t T) (ct nb : ptr) (m1 : memory) (pt : push_point) :
  push_link q ct nb m1 = Some pt →
  match pt with
  | PushReturn _ q' | PushThrow q' | PushWrite q' _ _ _ => stop q' = stop q
  end.
Proof. unfold push_link. intros Hp. option_inv Hp; by injection Hp as <-. Qed.

Lemma uq_push_prepare_stop (q : t) (pt : push_point) :
  push_prepare size dflt q = Some pt →
  match pt with
  | PushReturn _ q' | PushThrow q' | PushWrite q' _ _ _ => stop q' = stop q
  end.
Proof.
  unfold push_prepare. intros Hp.
  destruct (stop q) eqn:Hs; simpl in Hp; [by injection Hp as <-|].
  destruct (mem_new size dflt (mem q)) as [[nb m1]|].
  - option_inv Hp; [|by injection Hp as <-].
    apply uq_push_link_stop in Hp. by rewrite <- Hs.
  - option_inv Hp; by injection Hp as <-.
Qed.

Lemma uq_push_write_stop (q q' : t) (ct : ptr) (wr_pos next_pos : Z) (v : T)
    (c : completion bool) :
  push_write q ct wr_pos next_pos v = Some (c, q') → stop q' = stop q.
Proof. unfold push_write. intros Hp. option_inv Hp. by injection Hp as <- <-. Qed.

Lemma uq_push_stop (q q' : t) (v : T) (c : completion bool) :
  push size dflt q v = Some (c, q') → stop q' = stop q.
Proof.
  unfold push. intros Hp.
  destruct (push_prepare size dflt q) as [pt|] eqn:Hpt; simpl in Hp; [|done].
  apply uq_push_prepare_stop in Hpt.
  destruct pt as [b0 q0|q0|q0 ct wr_pos next_pos].
  - by injection Hp as <- <-.
  - by injection Hp as <- <-.
  - apply uq_push_write_stop in Hp. congruence.
Qed.

Lemma uq_pop_read_stop (q q' : t) (ch : ptr) (rd_pos : Z) (e' : T) (b : bool) :
  pop_read q ch rd_pos = Some (b, e', q') → stop q' = stop q.
Proof. unfold pop_read. intros Hp. option_inv Hp. by injection Hp as <- <- <-. Qed.

Lemma uq_pop_stop (q q' : t) (e e' : T) (b : bool) :
  pop q e = Some (b, e', q') → stop q' = stop q.
Proof.
  unfold pop. intros Hp.
  destruct (stop q) eqn:Hs; simpl in Hp; [by injection Hp as <- <- <-|].
  option_inv Hp; try (by injection Hp as <- <- <-);
    apply uq_pop_read_stop in Hp; by rewrite Hp.
Qed.

Lemma uq_destroy_loop_stop (fuel : nat) (q q' : @t T) (ch nb : ptr) :
  destroy_loop fuel q ch nb = Some q' → stop q' = stop q.
Proof.
  revert q ch nb. induction fuel as [|fuel IH]; intros q ch nb; simpl.
  - destruct nb; [done|]. by intros [= <-].
  - destruct nb as [a|]; [|by intros [= <-]].
    intros Hd. option_inv Hd. by apply IH in Hd.
Qed.

(** The destructor leaves the flag set. *)
Lemma uq_destroy_stop (q q' : @t T) : destroy q = Some q' → stop q' = true.
Proof.
  unfold destroy. intros Hd. option_inv Hd. injection Hd as <-; simpl.
  match goal with H : destroy_loop _ _ _ _ = Some _ |- _ =>
    by apply uq_destroy_loop_stop in H end.
Qed.

(** C4 (shutdown finality).  Once [stop] is set, [push] and [pop] return
    [false] at once and the state after the call is the state before it,
    whatever the queue holds; in particular the flag stays set.  The one
    remaining operation, the destructor, leaves it set as well. *)
Theorem uq_shutdown_final (q : t) (v e : T) :
  stop q = true →
  push size dflt q v = Some (Returned false, q) ∧
  pop q e = Some (false, e, q) ∧
  ∀ q', destroy q = Some q' → stop q' = true.
Proof.
  intros Hs. split; [|split].
  - unfold push, push_prepare. by rewrite Hs.
  - unfold pop. by rewrite Hs.
  - apply uq_destroy_stop.
Qed.

(** *** Crossing a block boundary *)

(** C5 (no retry after a block advance).  When the head block is drained
    and linked to a successor whose writer index is still 0, [pop] makes the
    successor the head, deletes the old head and returns [false]: the
    out-parameter keeps its value, the new head block is left as it was (its
    reader index is not advanced) and no block but the old head changes,
    whatever the successor's own link and the blocks behind it hold. *)
Theorem uq_pop_no_retry (q : t) (e : T) (h n : addr) (hb nb : MemoryBlock) :
  stop q = false →
  head q = Some h → blocks (mem q) !! h = Some hb →
  reader hb = writer hb → next_block hb = Some n →
  n ≠ h → blocks (mem q) !! n = Some nb → writer nb = 0 →
  ∃ q', pop q e = Some (false, e, q') ∧
        head q' = Some n ∧ tail q' = tail q ∧
        blocks (mem q') = delete h (blocks (mem q)) ∧
        blocks (mem q') !! n = Some nb ∧
        freed (mem q') = freed (mem q) ++ [h].
Proof.
  intros Hs Hh Hhb Hdrained Hnext Hne Hnb Hw.
  exists (without_block h (set_head (Some n) q)).
  split; [by eapply uq_pop_advance_empty|].
  repeat split. simpl. by rewrite lookup_delete_ne.
Qed.

(** The tail block is full and [new] succeeds: [push] returns [true]; the
    old tail block's link points to the new block, [tail] is the new block,
    and the new block holds the value in slot 0 with reader index 0, writer
    index [1 mod (size + 1)] and no successor; no other block changes. *)
Lemma uq_push_tail_full_alloc (q : t) (v : T) (t : addr) (tb : MemoryBlock) :
  0 ≤ size < 2 ^ SIZE_WIDTH - 1 →
  stop q = false → capacity q = size + 1 →
  tail q = Some t → blocks (mem q) !! t = Some tb →
  0 ≤ writer tb < size + 1 →
  (writer tb + 1) mod (size + 1) = reader tb →
  (base.size (blocks (mem q)) < quota (mem q))%nat →
  blocks (mem q) !! next_addr (mem q) = None →
  ∃ q' nb,
    push size dflt q v = Some (Returned true, q') ∧
    head q' = head q ∧ tail q' = Some (next_addr (mem q)) ∧
    blocks (mem q') !! t = Some (set_next_block (Some (next_addr (mem q))) tb) ∧
    blocks (mem q') !! next_addr (mem q) = Some nb ∧
    data nb !! 0%nat = Some v ∧
    reader nb = 0 ∧ writer nb = 1 mod (size + 1) ∧ next_block nb = None ∧
    ∀ a, a ≠ t → a ≠ next_addr (mem q) →
         blocks (mem q') !! a = blocks (mem q) !! a.
Proof.
  intros Hsize Hs Hc Ht Htb Hw Hfull Hmem Hfresh.
  assert (capacity q ≠ 0) as Hc0 by lia.
  assert (size_t_wrap (writer tb + 1) mod capacity q = reader tb) as Hfull'.
  { rewrite size_t_wrap_small, Hc by lia. done. }
  assert (t ≠ next_addr (mem q)) as Hne by (intros ->; congruence).
  eexists _, _. split.
  { eapply uq_push_full_alloc; try done. rewrite size_t_wrap_small; lia. }
  simpl. split; [done|]. split; [done|].
  split. { rewrite lookup_insert_ne by done. apply lookup_insert_eq. }
  split; [apply lookup_insert_eq|].
  split. { simpl. apply list_lookup_insert_eq. rewrite length_replicate.
           rewrite size_t_wrap_small; lia. }
  split; [done|]. split. { by rewrite size_t_wrap_small, Hc by lia. }
  split; [done|].
  intros a Hat Haa. by rewrite !lookup_insert_ne by done.
Qed.

(** The test of line 105 does what it says for a null pointer: [push]
    returns [false] and no block changes. *)
Lemma uq_push_link_null (q : @t T) (ct : ptr) (m1 : memory) :
  push_link q ct None m1 = Some (PushReturn false (set_mem m1 q)).
Proof. done. Qed.

(** C6 (allocation failure in [push]), at the queue [uq_exhausted]: an
    [UnboundedLockFreeQueue<Z, 1>] whose tail block is full and whose free
    store has no room for another block.  The specification has [push]
    return [false] there.  In the code the [new]-expression of line 104
    throws [std::bad_alloc], so [push] is left by the exception and
    returns nothing; the queue is unchanged.  The test for [nullptr] that follows
    would return [false], but no value of the [new]-expression is null.  A
    full [LockFreeQueue], in contrast, does return [false]. *)
Theorem uq_push_alloc_failure_throws :
  reachable 1 0 uq_exhausted ∧
  stop uq_exhausted = false ∧
  (∃ tb, load (mem uq_exhausted) (tail uq_exhausted) = Some tb ∧
         size_t_rem (size_t_wrap (writer tb + 1)) (capacity uq_exhausted)
           = Some (reader tb)) ∧
  mem_new 1 0 (mem uq_exhausted) = Thrown_bad_alloc ∧
  push 1 0 uq_exhausted 8 = Some (Thrown_bad_alloc, uq_exhausted) ∧
  push 1 0 uq_exhausted 8 ≠ Some (Returned false, uq_exhausted) ∧
  (∀ (m m' : @memory Z) (p : ptr), mem_new 1 0 m = Returned (p, m') → p ≠ None) ∧
  LockFreeQueue.push (LockFreeQueue.mk 2 0 1 [7; 0]) 8
    = Some (false, LockFreeQueue.mk 2 0 1 [7; 0]).
Proof.
  split.
  { eapply (reach_push _ _ _ 7); [apply (reach_make _ _ 1); reflexivity|].
    reflexivity. }
  split; [reflexivity|].
  split; [exists (mkBlock 0 1 None [7; 0]); split; reflexivity|].
  split; [reflexivity|]. split; [reflexivity|]. split; [discriminate|].
  split; [|reflexivity].
  intros m m' p. unfold mem_new. case_decide; [|discriminate]. by intros [= <- <-].
Qed.

(** *** The chain of blocks *)

Lemma chain_lookup (bs : gmap positive (@MemoryBlock T)) (l : list addr) (a : addr) :
  chain bs l → a ∈ l → is_Some (bs !! a).
Proof.
  induction l as [|x l IH]; simpl; intros Hch Ha; [by apply elem_of_nil in Ha|].
  destruct Hch as [(b & Hb & _) Hch].
  apply elem_of_cons in Ha as [->|Ha]; [by eexists|by apply IH].
Qed.

(** A write that keeps the link of the block keeps the chain. *)
Lemma chain_insert_same_next (bs : gmap positive (@MemoryBlock T)) (l : list addr)
    (a : addr) (b b' : MemoryBlock) :
  bs !! a = Some b → next_block b' = next_block b →
  chain bs l → chain (<[a := b']> bs) l.
Proof.
  intros Ha Hnext. induction l as [|x l IH]; simpl; [done|].
  intros [(bx & Hbx & Hx) Hch]. split; [|by apply IH].
  destruct (decide (x = a)) as [->|Hne].
  - exists b'. rewrite lookup_insert_eq. split; [done|]. congruence.
  - exists bx. by rewrite lookup_insert_ne.
Qed.

Lemma chain_insert_fresh (bs : gmap positive (@MemoryBlock T)) (l : list addr)
    (a : addr) (b : MemoryBlock) :
  a ∉ l → chain bs l → chain (<[a := b]> bs) l.
Proof.
  induction l as [|x l IH]; simpl; [done|].
  intros Ha [(bx & Hbx & Hx) Hch]. apply not_elem_of_cons in Ha as [Hne Ha].
  split; [|by apply IH]. exists bx. by rewrite lookup_insert_ne.
Qed.

Lemma chain_delete (bs : gmap positive (@MemoryBlock T)) (l : list addr) (a : addr) :
  a ∉ l → chain bs l → chain (delete a bs) l.
Proof.
  induction l as [|x l IH]; simpl; [done|].
  intros Ha [(bx & Hbx & Hx) Hch]. apply not_elem_of_cons in Ha as [Hne Ha].
  split; [|by apply IH]. exists bx. by rewrite lookup_delete_ne.
Qed.

(** Linking a new last block. *)
Lemma chain_snoc (bs : gmap positive (@MemoryBlock T)) (l : list addr)
    (t a : addr) (tb nb : MemoryBlock) :
  chain bs l → last l = Some t → bs !! t = Some tb →
  NoDup l → a ∉ l → next_block nb = None →
  chain (<[a := nb]> (<[t := set_next_block (Some a) tb]> bs)) (l ++ [a]).
Proof.
  intros Hch Hlast Htb Hnd Ha Hnb.
  induction l as [|x l IH]; [done|].
  apply not_elem_of_cons in Ha as [Hne Ha].
  apply NoDup_cons in Hnd as [Hx Hnd].
  destruct Hch as [(bx & Hbx & Hnext) Hch].
  destruct l as [|y l].
  - injection Hlast as ->. simpl. split; [|split; [|done]].
    + exists (set_next_block (Some a) tb).
      by rewrite lookup_insert_ne, lookup_insert_eq by done.
    + exists nb. by rewrite lookup_insert_eq.
  - change (last (x :: y :: l)) with (last (y :: l)) in Hlast.
    split; [|by apply IH].
    exists bx. split; [|done].
    rewrite !lookup_insert_ne; [done| |done].
    intros ->. apply Hx. by apply last_Some_elem_of.
Qed.

(** *** Preservation of the invariant *)

Section invariant.
Hypothesis size_range : 0 ≤ size < 2 ^ SIZE_WIDTH - 1.

Lemma block_wf_make : block_wf size (MemoryBlock_make size dflt).
Proof.
  unfold block_wf; simpl. rewrite length_replicate, size_t_wrap_small by lia. lia.
Qed.

Lemma block_wf_written (b : MemoryBlock) (wr_pos next_pos : Z) (v : T) :
  block_wf size b → 0 ≤ next_pos < size + 1 →
  block_wf size (written wr_pos next_pos v b).
Proof.
  intros (Hl & Hr & Hw) Hn. unfold block_wf; simpl. by rewrite length_insert.
Qed.

Lemma block_wf_set_reader (b : @MemoryBlock T) (next_pos : Z) :
  block_wf size b → 0 ≤ next_pos < size + 1 →
  block_wf size (set_reader next_pos b).
Proof. intros (Hl & Hr & Hw) Hn. done. Qed.

Lemma ring_next_range (i : Z) : 0 ≤ size_t_wrap (i + 1) mod (size + 1) < size + 1.
Proof. apply Z.mod_pos_bound. lia. Qed.

Lemma inv_make (quota : nat) (q : t) :
  make size dflt quota = Returned q → inv size q.
Proof.
  unfold make, mem_new. case_decide; [|done]. intros [= <-].
  simpl. split; [|split; [done|]].
  - split; simpl; [by rewrite size_t_wrap_small by lia|].
    apply map_Forall_insert_2; [apply block_wf_make|apply map_Forall_empty].
  - exists [1%positive]; simpl.
    split; [by eexists|]. split; [done|]. split; [done|].
    split. { split; [|done]. eexists. by rewrite lookup_insert_eq. }
    split. { intros a. rewrite list_elem_of_singleton.
             destruct (decide (a = 1%positive)) as [->|Hne].
             - by rewrite lookup_insert_eq.
             - rewrite lookup_insert_ne, lookup_empty by done.
               split; [by intros [? [=]]|done]. }
    split; [done|]. split; [apply NoDup_singleton|].
    intros a ->%list_elem_of_singleton. lia.
Qed.

(** A write into a live block that keeps its link. *)
Lemma inv_with_block (q : t) (a : addr) (b b' : @MemoryBlock T) :
  inv size q → blocks (mem q) !! a = Some b →
  next_block b' = next_block b → block_wf size b' →
  inv size (with_block a b' q).
Proof.
  intros ([Hc Hwf] & Hs & l & Hh & Hhead & Htail & Hch & Hdom & Halloc & Hnd & Hfresh)
    Ha Hnext Hb'.
  split; [|split; [done|]].
  - split; [done|]. by apply map_Forall_insert_2.
  - exists l; simpl. repeat split; try done.
    + by eapply chain_insert_same_next.
    + intros Hsome. apply Hdom. destruct (decide (a0 = a)) as [->|Hne]; [by eexists|].
      by rewrite lookup_insert_ne in Hsome.
    + intros Hl%Hdom. destruct (decide (a0 = a)) as [->|Hne].
      * by rewrite lookup_insert_eq.
      * by rewrite lookup_insert_ne.
Qed.

(** The consumer moves on to the successor and deletes the old head. *)
Lemma inv_advance (q : t) (h n : addr) (hb : @MemoryBlock T) :
  inv size q → head q = Some h → blocks (mem q) !! h = Some hb →
  next_block hb = Some n →
  n ≠ h ∧ is_Some (blocks (mem q) !! n) ∧
  inv size (without_block h (set_head (Some n) q)).
Proof.
  intros ([Hc Hwf] & Hs & l & Hh & Hhead & Htail & Hch & Hdom & Halloc & Hnd & Hfresh)
    Hq Hhb Hnext.
  destruct l as [|h' l]; [by rewrite Hq in Hhead|].
  rewrite Hq in Hhead. injection Hhead as <-.
  destruct Hch as [(hb' & Hhb' & Hn) Hch].
  assert (hb' = hb) as -> by congruence.
  destruct l as [|n' l]; [simpl in Hn; congruence|].
  assert (n' = n) as -> by (simpl in Hn; congruence).
  assert (NoDup (h :: n :: l)) as Hndl.
  { rewrite Halloc in Hnd. by apply NoDup_app in Hnd as (_ & _ & Hnd). }
  apply NoDup_cons in Hndl as [Hhl Hndl].
  assert (n ≠ h) as Hne by (intros ->; apply Hhl; left).
  split; [done|]. split; [apply Hdom; right; left|].
  split; [|split; [done|]].
  - split; [done|]. simpl. by apply map_Forall_delete.
  - exists (n :: l); simpl. split; [by eexists|]. split; [done|]. split; [done|].
    split. { by apply (chain_delete _ (n :: l)). }
    split. { intros a. destruct (decide (a = h)) as [->|Hah].
             - rewrite lookup_delete_eq. split; [by intros [? [=]]|done].
             - rewrite lookup_delete_ne, Hdom by done.
               rewrite (elem_of_cons (n :: l) a h).
               split; [|by right]. intros [?|?]; [congruence|done]. }
    split. { by rewrite Halloc, <- app_assoc. }
    done.
Qed.

(** The producer links a fresh block behind the tail and writes into it. *)
Lemma inv_alloc (q : t) (t : addr) (tb : MemoryBlock) (next_pos : Z) (v : T) :
  inv size q → tail q = Some t → blocks (mem q) !! t = Some tb →
  0 ≤ next_pos < size + 1 →
  blocks (mem q) !! next_addr (mem q) = None ∧
  inv size
    (with_block (next_addr (mem q)) (written 0 next_pos v (MemoryBlock_make size dflt))
       (set_tail (Some (next_addr (mem q)))
          (with_block t (set_next_block (Some (next_addr (mem q))) tb)
             (with_new_block size dflt q)))).
Proof.
  intros ([Hc Hwf] & Hs & l & Hh & Hhead & Htail & Hch & Hdom & Halloc & Hnd & Hfresh)
    Hq Htb Hnp.
  set (a := next_addr (mem q)).
  assert (a ∉ allocated (mem q)) as Hnew.
  { intros Hin%Hfresh. unfold a in Hin. lia. }
  assert (a ∉ l) as Hal.
  { intros Hin. apply Hnew. rewrite Halloc. apply elem_of_app. by right. }
  assert (blocks (mem q) !! a = None) as Hnone.
  { apply eq_None_not_Some. by rewrite Hdom. }
  assert (t ≠ a) as Hne by (intros ->; congruence).
  assert (NoDup l) as Hndl.
  { rewrite Halloc in Hnd. by apply NoDup_app in Hnd as (_ & _ & Hnd). }
  split; [done|]. split; [|split; [done|]].
  - split; [done|]. simpl.
    apply map_Forall_insert_2; [apply block_wf_written; [apply block_wf_make|done]|].
    apply map_Forall_insert_2.
    { destruct (Hwf t tb Htb) as (? & ? & ?). done. }
    apply map_Forall_insert_2; [apply block_wf_make|done].
  - exists (l ++ [a]); simpl.
    split; [done|]. split. { destruct l; [by rewrite Hhead in Hh; destruct Hh|done]. }
    split. { by rewrite last_snoc. }
    split.
    { rewrite Hq in Htail.
      fold a. rewrite (insert_insert_ne _ t a), insert_insert_eq by done.
      by apply (chain_snoc _ _ t a tb). }
    split.
    { intros x. rewrite elem_of_app, list_elem_of_singleton, <- Hdom.
      destruct (decide (x = a)) as [->|Hxa].
      - rewrite lookup_insert_eq. split; [by right|by eexists].
      - rewrite lookup_insert_ne by done.
        destruct (decide (x = t)) as [->|Hxt].
        + rewrite lookup_insert_eq, Htb. split; [left|]; by eexists.
        + rewrite !lookup_insert_ne by done.
          split; [by left|]. intros [?|?]; [done|congruence]. }
    split. { by rewrite Halloc, <- app_assoc. }
    split. { apply NoDup_app. split; [done|]. split; [|apply NoDup_singleton].
             intros x Hx ->%list_elem_of_singleton. done. }
    intros x [Hx| ->%list_elem_of_singleton]%elem_of_app; [apply Hfresh in Hx|]; lia.
Qed.

(** On a state with the invariant [push] is defined, and its result has
    the invariant. *)
Lemma uq_push_inv (q : t) (v : T) :
  inv size q → ∃ c q', push size dflt q v = Some (c, q') ∧ inv size q'.
Proof.
  intros Hinv.
  pose proof Hinv as
    ([Hc Hwf] & Hs & l & [h Hh] & Hhead & Htail & Hch & Hdom & Halloc & Hnd & Hfresh).
  destruct (last l) as [t|] eqn:Hlast;
    [|apply last_None in Hlast; subst l; simpl in Hhead; congruence].
  destruct (proj2 (Hdom t)) as [tb Htb]; [by apply last_Some_elem_of|].
  destruct (Hwf t tb Htb) as (Hl & Hr & Hw).
  assert (capacity q ≠ 0) as Hc0 by lia.
  destruct (decide (size_t_wrap (writer tb + 1) mod capacity q = reader tb))
    as [Hfull|Hroom].
  - destruct (decide (base.size (blocks (mem q)) < quota (mem q))%nat) as [Hmem|Hmem].
    + destruct (inv_alloc q t tb (size_t_wrap (0 + 1) mod capacity q) v Hinv Htail Htb)
        as [Hnone Hinv']; [rewrite Hc; apply ring_next_range|].
      eexists _, _. split; [|exact Hinv'].
      eapply uq_push_full_alloc; try done. rewrite size_t_wrap_small; lia.
    + exists Thrown_bad_alloc, q. split; [by eapply uq_push_full_nomem|done].
  - eexists _, _. split; [eapply uq_push_room; try done; lia|].
    apply (inv_with_block q t tb); [done..|].
    apply block_wf_written; [done|]. rewrite Hc. apply ring_next_range.
Qed.

(** The same for [pop]. *)
Lemma uq_pop_inv (q : t) (e : T) :
  inv size q → ∃ b e' q', pop q e = Some (b, e', q') ∧ inv size q'.
Proof.
  intros Hinv.
  pose proof Hinv as
    ([Hc Hwf] & Hs & l & [h Hh] & Hhead & Htail & Hch & Hdom & Halloc & Hnd & Hfresh).
  destruct (proj2 (Hdom h)) as [hb Hhb].
  { apply (list_elem_of_lookup_2 l 0%nat). congruence. }
  destruct (Hwf h hb Hhb) as (Hl & Hr & Hw).
  assert (capacity q ≠ 0) as Hc0 by lia.
  destruct (decide (reader hb = writer hb)) as [Hdrained|Hne].
  - destruct (next_block hb) as [n|] eqn:Hnext.
    + destruct (inv_advance q h n hb Hinv Hh Hhb Hnext) as (Hnh & [nb Hnb] & Hinv').
      destruct (Hwf n nb Hnb) as (Hnl & Hnr & Hnw).
      destruct (decide (writer nb = 0)) as [Hw0|Hw0].
      * eexists _, _, _. split; [by eapply uq_pop_advance_empty|done].
      * destruct (array_get_Some (data nb) 0) as [x Hx]; [lia|].
        eexists _, _, _. split; [by eapply uq_pop_advance_read|].
        apply (inv_with_block _ n nb); [done| |done|].
        -- simpl. by rewrite lookup_delete_ne.
        -- apply block_wf_set_reader; [done|]. simpl. rewrite Hc. apply ring_next_range.
    + exists false, e, q. split; [by eapply uq_pop_empty|done].
  - destruct (array_get_Some (data hb) (reader hb)) as [x Hx]; [lia|].
    eexists _, _, _. split; [by eapply uq_pop_read|].
    apply (inv_with_block q h hb); [done..|].
    apply block_wf_set_reader; [done|]. rewrite Hc. apply ring_next_range.
Qed.

Lemma uq_reachable_inv (q : t) : reachable size dflt q → inv size q.
Proof.
  induction 1 as [quota q Hq|q v b q' _ IH Hp|q e b e' q' _ IH Hp].
  - by eapply inv_make.
  - destruct (uq_push_inv q v IH) as (b0 & q0 & Hp0 & Hinv). congruence.
  - destruct (uq_pop_inv q e IH) as (b0 & e0 & q0 & Hp0 & Hinv). congruence.
Qed.

(** In a reachable state no block has been deleted twice, no deleted block
    is live, and every block handed out by [new] is deleted or live. *)
Lemma uq_reachable_freed_once (q : t) :
  reachable size dflt q →
  NoDup (freed (mem q)) ∧
  (∀ a, a ∈ freed (mem q) → blocks (mem q) !! a = None) ∧
  (∀ a, a ∈ allocated (mem q) ↔ a ∈ freed (mem q) ∨ is_Some (blocks (mem q) !! a)).
Proof.
  intros (_ & _ & l & _ & _ & _ & _ & Hdom & Halloc & Hnd & _)%uq_reachable_inv.
  rewrite Halloc in Hnd. apply NoDup_app in Hnd as (Hf & Hdisj & _).
  split; [done|]. split.
  - intros a Ha. apply eq_None_not_Some. rewrite Hdom. by apply Hdisj.
  - intros a. by rewrite Halloc, elem_of_app, Hdom.
Qed.

End invariant.

End UnboundedLockFreeQueue_facts.

(** *** Two instances: [UnboundedLockFreeQueue<T, 2>] and the boundary case *)

Section UnboundedLockFreeQueue_instances.
Import UnboundedLockFreeQueue.
Context {T : Type}.
Variable dflt : T.

(** C3 (cross-block continuity).  On a free store with room for three
    blocks, an [UnboundedLockFreeQueue<T, 2>] is constructed and five
    pushes return [true]; they leave the values in three blocks: the
    constructor's and two allocated by [push], none freed.  Five pops then
    return [true] with [v1 .. v5] in order.  Block 1 is deleted by the third
    pop and block 2 by the fifth, each once, and block 3 stays as head and
    tail. *)
Theorem uq_cross_block (v1 v2 v3 v4 v5 e : T) (quota : nat) :
  (3 ≤ quota)%nat →
  ∃ q0 q1 qa qb q2,
    make 2 dflt quota = Returned q0 ∧
    push_all 2 dflt q0 [v1; v2; v3; v4; v5]
      = Some ([Returned true; Returned true; Returned true;
               Returned true; Returned true], q1) ∧
    blocks (mem q1) =
      {[ 1%positive := mkBlock 0 2 (Some 2%positive) [v1; v2; dflt];
         2%positive := mkBlock 0 2 (Some 3%positive) [v3; v4; dflt];
         3%positive := mkBlock 0 1 None [v5; dflt; dflt] ]} ∧
    allocated (mem q1) = [1; 2; 3]%positive ∧ freed (mem q1) = [] ∧
    pop_n q1 e 2 = Some ([(true, v1); (true, v2)], qa) ∧
    freed (mem qa) = [] ∧
    pop_n qa v2 1 = Some ([(true, v3)], qb) ∧
    freed (mem qb) = [1%positive] ∧
    pop_n qb v3 2 = Some ([(true, v4); (true, v5)], q2) ∧
    allocated (mem q2) = [1; 2; 3]%positive ∧
    freed (mem q2) = [1; 2]%positive ∧
    dom (blocks (mem q2)) = {[ 3%positive ]} ∧
    head q2 = Some 3%positive ∧ tail q2 = Some 3%positive.
Proof.
  intros Hquota. destruct quota as [|[|[|k]]]; [lia..|].
  eexists _, _, _, _, _.
  split; [vm_compute; reflexivity|].
  split; [vm_compute; reflexivity|]. split; [vm_compute; reflexivity|].
  split; [reflexivity|]. split; [reflexivity|].
  split; [vm_compute; reflexivity|]. split; [reflexivity|].
  split; [vm_compute; reflexivity|]. split; [reflexivity|].
  split; [vm_compute; reflexivity|].
  repeat split; vm_compute; reflexivity.
Qed.

(** The sample states are states of the model. *)
Lemma uq_fresh_reachable : reachable 3 0 uq_fresh.
Proof. apply (reach_make _ _ 2). reflexivity. Qed.

Lemma uq_full_tail_reachable : reachable 1 0 uq_full_tail.
Proof.
  eapply (reach_push _ _ _ 7); [apply (reach_make _ _ 2); reflexivity|].
  reflexivity.
Qed.

Lemma uq_stalled_observable : observable 1 0 uq_stalled.
Proof.
  eapply (obs_pop _ _ _ 0).
  - eapply obs_mid_push; [apply uq_full_tail_reachable|]. reflexivity.
  - reflexivity.
Qed.

(** C9 (a failed [pop] may change the state).  [UnboundedLockFreeQueue::pop]
    can return [false] after it has moved [head] and deleted a block.  Such
    a state is met by the consumer of an [UnboundedLockFreeQueue<T, 1>]
    while the producer stands between linking a new block and writing into
    it, and it is reached by whole calls alone on an
    [UnboundedLockFreeQueue<T, 0>].  In both, the head block is drained and
    linked to a block whose writer index is 0; [pop] returns [false], leaves
    the out-parameter alone, makes the successor the head and deletes the
    old head.  [LockFreeQueue::pop], in any state whatever, returns [false]
    only with state and out-parameter unchanged. *)
Theorem uq_pop_false_changes_state (e : T) :
  (∃ (q q' : t) (h n : addr),
     observable 1 dflt q ∧ drained_before_empty q h n ∧
     pop q e = Some (false, e, q') ∧
     head q' = Some n ∧ n ≠ h ∧
     blocks (mem q') !! h = None ∧
     freed (mem q') = freed (mem q) ++ [h]) ∧
  (∃ (q q' : t) (h n : addr),
     reachable 0 dflt q ∧ drained_before_empty q h n ∧
     pop q e = Some (false, e, q') ∧
     head q' = Some n ∧ n ≠ h ∧
     blocks (mem q') !! h = None ∧
     freed (mem q') = freed (mem q) ++ [h]) ∧
  (∀ (lq : LockFreeQueue.t) (e0 : T),
     match LockFreeQueue.pop lq e0 with
     | Some (false, e', lq') => lq' = lq ∧ e' = e0
     | _ => True
     end).
Proof.
  split; [|split].
  - eexists _, _, 1%positive, 2%positive. split.
    { eapply (obs_pop _ _ _ e).
      - eapply obs_mid_push.
        + eapply (reach_push _ _ _ dflt); [apply (reach_make _ _ 2); reflexivity|].
          vm_compute. reflexivity.
        + vm_compute. reflexivity.
      - vm_compute. reflexivity. }
    split. { split; [done|]. eexists _, _. by vm_compute. }
    split; [by vm_compute|]. by vm_compute.
  - eexists _, _, 1%positive, 2%positive. split.
    { eapply (reach_push _ _ _ dflt); [apply (reach_make _ _ 2); reflexivity|].
      vm_compute. reflexivity. }
    split. { split; [done|]. eexists _, _. by vm_compute. }
    split; [by vm_compute|]. by vm_compute.
  - intros lq e0. unfold LockFreeQueue.pop.
    case_decide; [done|].
    destruct (array_get _ _); simpl; [|done].
    destruct (size_t_rem _ _); simpl; done.
Qed.

End UnboundedLockFreeQueue_instances.

(** ** Indices stay inside the arrays *)

Section index_bounds.
Context {T : Type}.
Variable size : Z.
Variable dflt : T.

(** C10 (indices in bounds).  In every state of a [LockFreeQueue<T, size>]
    reached by calls of [push] and [pop], the array has [size + 1] slots and
    the reader and writer indices are below [size + 1]; so the accesses
    [data[wr_pos]] of [push] and [data[rd_pos]] of [pop] are in range and
    both calls are defined.  In every state of an
    [UnboundedLockFreeQueue<T, size>] reached the same way, every live block
    has [size + 1] slots and both its indices below [size + 1], and both
    calls are defined.  The states reached are closed under the calls, so
    each call preserves the bounds. *)
Theorem queue_indices_in_bounds
    (lq : LockFreeQueue.t) (uq : UnboundedLockFreeQueue.t) :
  0 ≤ size < 2 ^ SIZE_WIDTH - 1 →
  LockFreeQueue.reachable size dflt lq →
  UnboundedLockFreeQueue.reachable size dflt uq →
  (Z.of_nat (length (LockFreeQueue.data lq)) = size + 1 ∧
   0 ≤ LockFreeQueue.reader lq < size + 1 ∧
   0 ≤ LockFreeQueue.writer lq < size + 1 ∧
   (∀ v, is_Some (array_set (LockFreeQueue.data lq) (LockFreeQueue.writer lq) v)) ∧
   is_Some (array_get (LockFreeQueue.data lq) (LockFreeQueue.reader lq)) ∧
   (∀ v, is_Some (LockFreeQueue.push lq v)) ∧
   (∀ e, is_Some (LockFreeQueue.pop lq e))) ∧
  ((∀ a b, UnboundedLockFreeQueue.blocks (UnboundedLockFreeQueue.mem uq) !! a = Some b →
      Z.of_nat (length (UnboundedLockFreeQueue.data b)) = size + 1 ∧
      0 ≤ UnboundedLockFreeQueue.reader b < size + 1 ∧
      0 ≤ UnboundedLockFreeQueue.writer b < size + 1) ∧
   (∀ v, is_Some (UnboundedLockFreeQueue.push size dflt uq v)) ∧
   (∀ e, is_Some (UnboundedLockFreeQueue.pop uq e))).
Proof.
  intros Hsize Hlq Huq. split.
  - apply (lfq_reachable_wf size dflt Hsize) in Hlq.
    pose proof Hlq as (Hc & Hl & Hr & Hw).
    split; [done|]. split; [done|]. split; [done|].
    split. { intros v. rewrite array_set_Some by lia. by eexists. }
    split. { apply array_get_Some. lia. }
    split.
    + intros v. rewrite (lfq_push_eq size Hsize lq v Hlq). case_decide; by eexists.
    + intros e. destruct (lfq_pop_eq size Hsize lq e Hlq) as (x & _ & ->).
      case_decide; by eexists.
  - apply (uq_reachable_inv size dflt Hsize) in Huq.
    split; [|split].
    + intros a b Hb. destruct Huq as ([_ Hwf] & _). exact (Hwf a b Hb).
    + intros v. destruct (uq_push_inv size dflt Hsize uq v Huq) as (b & q' & -> & _).
      by eexists.
    + intros e. destruct (uq_pop_inv size Hsize uq e Huq) as (b & e' & q' & -> & _).
      by eexists.
Qed.

End index_bounds.

(** ** The theorems at concrete queues *)

Lemma uq_cross_block_witness :
  (3 ≤ 4)%nat ∧
  ∃ q0 q1 q2,
    UnboundedLockFreeQueue.make 2 0 4 = Returned q0 ∧
    UnboundedLockFreeQueue.push_all 2 0 q0 [11; 12; 13; 14; 15]
      = Some ([Returned true; Returned true; Returned true;
               Returned true; Returned true], q1) ∧
    UnboundedLockFreeQueue.pop_n q1 99 5
      = Some ([(true, 11); (true, 12); (true, 13); (true, 14); (true, 15)], q2) ∧
    UnboundedLockFreeQueue.allocated (UnboundedLockFreeQueue.mem q2) = [1; 2; 3]%positive ∧
    UnboundedLockFreeQueue.freed (UnboundedLockFreeQueue.mem q2) = [1; 2]%positive.
Proof.
  split; [lia|].
  destruct (uq_cross_block 0 11 12 13 14 15 99 4) as
    (q0 & q1 & qa & qb & q2 & Hmake & Hpush & _ & _ & _ & Hpa & _ & Hpb & _ & Hp2
       & Halloc & Hfreed & _); [lia|].
  exists q0, q1, q2. split; [done|]. split; [done|]. split; [|done].
  change 5%nat with (2 + (1 + 2))%nat.
  simpl in Hpa, Hpb, Hp2 |- *.
  destruct (UnboundedLockFreeQueue.pop q1 99) as [[[b1 e1] r1]|]; simpl in *; [|done].
  destruct (UnboundedLockFreeQueue.pop r1 e1) as [[[b2 e2] r2]|]; simpl in *; [|done].
  injection Hpa as -> -> -> -> ->.
  destruct (UnboundedLockFreeQueue.pop qa 12) as [[[b3 e3] r3]|]; simpl in *; [|done].
  injection Hpb as -> -> ->.
  destruct (UnboundedLockFreeQueue.pop qb 13) as [[[b4 e4] r4]|]; simpl in *; [|done].
  destruct (UnboundedLockFreeQueue.pop r4 e4) as [[[b5 e5] r5]|]; simpl in *; [|done].
  by injection Hp2 as -> -> -> -> ->.
Defined.

Lemma uq_shutdown_final_witness :
  UnboundedLockFreeQueue.stop uq_stopped = true ∧
  UnboundedLockFreeQueue.push 2 0 uq_stopped 7 = Some (Returned false, uq_stopped) ∧
  UnboundedLockFreeQueue.pop uq_stopped 9 = Some (false, 9, uq_stopped) ∧
  ∀ q', UnboundedLockFreeQueue.destroy uq_stopped = Some q' →
        UnboundedLockFreeQueue.stop q' = true.
Proof.
  split; [reflexivity|]. apply (uq_shutdown_final 2 0 uq_stopped 7 9). reflexivity.
Defined.

Lemma uq_pop_no_retry_witness :
  ∃ q',
    UnboundedLockFreeQueue.pop uq_stalled 9 = Some (false, 9, q') ∧
    UnboundedLockFreeQueue.head q' = Some 2%positive ∧
    UnboundedLockFreeQueue.tail q' = UnboundedLockFreeQueue.tail uq_stalled ∧
    UnboundedLockFreeQueue.blocks (UnboundedLockFreeQueue.mem q') =
      delete 1%positive (UnboundedLockFreeQueue.blocks (UnboundedLockFreeQueue.mem uq_stalled)) ∧
    UnboundedLockFreeQueue.blocks (UnboundedLockFreeQueue.mem q') !! 2%positive =
      Some (UnboundedLockFreeQueue.mkBlock 0 0 None [0; 0]) ∧
    UnboundedLockFreeQueue.freed (UnboundedLockFreeQueue.mem q') =
      UnboundedLockFreeQueue.freed (UnboundedLockFreeQueue.mem uq_stalled) ++ [1%positive].
Proof.
  apply (uq_pop_no_retry uq_stalled 9 1%positive 2%positive
           (UnboundedLockFreeQueue.mkBlock 1 1 (Some 2%positive) [7; 0])
           (UnboundedLockFreeQueue.mkBlock 0 0 None [0; 0]));
    by vm_compute.
Defined.

Lemma queue_indices_in_bounds_witness :
  0 ≤ LockFreeQueue.reader (LockFreeQueue.make 3 0) < 3 + 1 ∧
  0 ≤ LockFreeQueue.writer (LockFreeQueue.make 3 0) < 3 + 1 ∧
  (∀ v, is_Some (UnboundedLockFreeQueue.push 3 0 uq_fresh v)).
Proof.
  destruct (queue_indices_in_bounds 3 0 (LockFreeQueue.make 3 0) uq_fresh)
    as ((_ & Hr & Hw & _) & (_ & Hpush & _)).
  - by vm_compute.
  - apply LockFreeQueue.reach_make.
  - apply (UnboundedLockFreeQueue.reach_make 3 0 2). reflexivity.
  - done.
Defined.

(** * Further properties *)

(** ** The bounded queues are first-in first-out buffers *)

Section bounded_fifo.
Context {T : Type}.
Variable size : Z.
Variable dflt : T.
Hypothesis size_range : 0 ≤ size < 2 ^ SIZE_WIDTH - 1.

Lemma fifo_push_room (xs : list T) (v : T) :
  Z.of_nat (length xs) < size → fifo_push size xs v = Some (true, xs ++ [v]).
Proof. intros H. unfold fifo_push. by rewrite decide_True. Qed.

Lemma fifo_push_full (xs : list T) (v : T) :
  ¬ Z.of_nat (length xs) < size → fifo_push size xs v = Some (false, xs).
Proof. intros H. unfold fifo_push. by rewrite decide_False. Qed.

(** A ring that holds [xs] answers every sequence of calls as the buffer
    [xs] of capacity [size] does. *)
Lemma lfq_run_fifo (cs : list (call T)) (q : LockFreeQueue.t) (xs : list T) (e : T) :
  LockFreeQueue.represents size q xs →
  fst <$> run LockFreeQueue.push LockFreeQueue.pop q e cs =
  fst <$> run (fifo_push size) fifo_pop xs e cs.
Proof.
  revert q xs e. induction cs as [|[v|] cs IH]; intros q xs e Hrep; simpl; [done| |].
  - destruct (decide (Z.of_nat (length xs) < size)) as [Hroom|Hroom].
    + rewrite (fifo_push_room xs v Hroom).
      destruct (lfq_push_represents size size_range q xs v Hrep Hroom) as (q1 & -> & Hrep1).
      simpl. specialize (IH q1 (xs ++ [v]) e Hrep1).
      destruct (run LockFreeQueue.push LockFreeQueue.pop q1 e cs) as [[[os e2] q2]|],
               (run (fifo_push size) fifo_pop (xs ++ [v]) e cs) as [[[os' e2'] xs2]|];
        simpl in *; congruence.
    + assert (Z.of_nat (length xs) = size) as Hfull.
      { destruct Hrep as (Hwf & Hlen & _).
        pose proof (lfq_live_range size size_range q Hwf). lia. }
      rewrite (fifo_push_full xs v Hroom).
      rewrite (lfq_push_full size size_range q xs v Hrep Hfull). simpl.
      specialize (IH q xs e Hrep).
      destruct (run LockFreeQueue.push LockFreeQueue.pop q e cs) as [[[os e2] q2]|],
               (run (fifo_push size) fifo_pop xs e cs) as [[[os' e2'] xs2]|];
        simpl in *; congruence.
  - destruct xs as [|x xs]; simpl.
    + rewrite (lfq_pop_empty size size_range q e Hrep). simpl.
      specialize (IH q [] e Hrep).
      destruct (run LockFreeQueue.push LockFreeQueue.pop q e cs) as [[[os e2] q2]|],
               (run (fifo_push size) fifo_pop [] e cs) as [[[os' e2'] xs2]|];
        simpl in *; congruence.
    + destruct (lfq_pop_represents size size_range q x xs e Hrep) as (q1 & -> & Hrep1).
      simpl. specialize (IH q1 xs x Hrep1).
      destruct (run LockFreeQueue.push LockFreeQueue.pop q1 x cs) as [[[os e2] q2]|],
               (run (fifo_push size) fifo_pop xs x cs) as [[[os' e2'] xs2]|];
        simpl in *; congruence.
Qed.

(** The buffer is a total function of the calls. *)
Lemma fifo_run_defined (cs : list (call T)) (xs : list T) (e : T) :
  is_Some (run (fifo_push size) fifo_pop xs e cs).
Proof.
  revert xs e. induction cs as [|[v|] cs IH]; intros xs e; simpl; [by eexists| |].
  - destruct (decide (Z.of_nat (length xs) < size)) as [Hroom|Hroom].
    + rewrite (fifo_push_room xs v Hroom); simpl.
      destruct (IH (xs ++ [v]) e) as [[[os e2] xs2] ->]. by eexists.
    + rewrite (fifo_push_full xs v Hroom); simpl.
      destruct (IH xs e) as [[[os e2] xs2] ->]. by eexists.
  - destruct xs as [|x xs]; simpl.
    + destruct (IH [] e) as [[[os e2] xs2] ->]. by eexists.
    + destruct (IH xs x) as [[[os e2] xs2] ->]. by eexists.
Qed.

(** X1.  Whatever the order of the [push] and [pop] calls, a
    [LockFreeQueue<T, size>] started fresh answers each of them as a
    first-in first-out buffer of capacity [size] does: [push] returns
    [false] exactly when [size] values wait, [pop] returns the value pushed
    longest ago, or [false] without touching its argument when none waits;
    and every call is defined. *)
Theorem lfq_is_bounded_fifo (cs : list (call T)) (e : T) :
  is_Some (run LockFreeQueue.push LockFreeQueue.pop (LockFreeQueue.make size dflt) e cs) ∧
  fst <$> run LockFreeQueue.push LockFreeQueue.pop (LockFreeQueue.make size dflt) e cs =
  fst <$> run (fifo_push size) fifo_pop [] e cs.
Proof.
  split.
  - apply (lfq_run_defined size size_range), lfq_wf_make. done.
  - apply lfq_run_fifo, lfq_make_represents. done.
Qed.

(** With the mutex free, a run of the [MutexedQueue] is the run of its
    ring, and the mutex is free again at the end. *)
Lemma mq_run_unlocked (cs : list (call T)) (m : MutexedQueue.t) (e : T) :
  MutexedQueue.lock m = false →
  match run MutexedQueue.push MutexedQueue.pop m e cs with
  | Some (os, e', m') =>
      MutexedQueue.lock m' = false ∧
      run LockFreeQueue.push LockFreeQueue.pop (erase_lock m) e cs
        = Some (os, e', erase_lock m')
  | None => run LockFreeQueue.push LockFreeQueue.pop (erase_lock m) e cs = None
  end.
Proof.
  revert m e. induction cs as [|[v|] cs IH]; intros m e Hfree; simpl; [done| |].
  - pose proof (mq_push_sim m v Hfree) as Hsim.
    destruct (MutexedQueue.push m v) as [[b m1]|]; simpl; [|by rewrite Hsim].
    destruct Hsim as [-> Hfree1]; simpl.
    specialize (IH m1 e Hfree1).
    destruct (run MutexedQueue.push MutexedQueue.pop m1 e cs) as [[[os e2] m2]|]; simpl.
    + destruct IH as [Hfree2 ->]. done.
    + by rewrite IH.
  - pose proof (mq_pop_sim m e Hfree) as Hsim.
    destruct (MutexedQueue.pop m e) as [[[b e1] m1]|]; simpl; [|by rewrite Hsim].
    destruct Hsim as [-> Hfree1]; simpl.
    specialize (IH m1 e1 Hfree1).
    destruct (run MutexedQueue.push MutexedQueue.pop m1 e1 cs) as [[[os e2] m2]|]; simpl.
    + destruct IH as [Hfree2 ->]. done.
    + by rewrite IH.
Qed.

(** X2.  A [MutexedQueue<T, size>] started fresh answers every sequence of
    calls as a first-in first-out buffer of capacity [size] does; every
    call finds the mutex free, so none is undefined, and the mutex is free
    after the last call. *)
Theorem mq_is_bounded_fifo (cs : list (call T)) (e : T) :
  ∃ os e' m' xs',
    run MutexedQueue.push MutexedQueue.pop (MutexedQueue.make size dflt) e cs
      = Some (os, e', m') ∧
    MutexedQueue.lock m' = false ∧
    run (fifo_push size) fifo_pop [] e cs = Some (os, e', xs').
Proof.
  pose proof (mq_run_unlocked cs (MutexedQueue.make size dflt) e eq_refl) as Hm.
  pose proof (lfq_run_fifo cs _ [] e (lfq_make_represents size dflt size_range)) as Hl.
  destruct (lfq_run_defined size size_range cs (LockFreeQueue.make size dflt) e)
    as [[[os e'] q'] Hrun]; [by apply lfq_wf_make|].
  change (erase_lock (MutexedQueue.make size dflt)) with (LockFreeQueue.make size dflt) in Hm.
  destruct (run MutexedQueue.push MutexedQueue.pop (MutexedQueue.make size dflt) e cs)
    as [[[os1 e1] m1]|]; [|congruence].
  destruct Hm as [Hfree Hm]. rewrite Hrun in Hm, Hl. injection Hm as <- <- _.
  destruct (fifo_run_defined cs [] e) as [[[os2 e2] xs2] Hf].
  rewrite Hf in Hl. simpl in Hl. injection Hl as <- <-.
  by exists os, e', m1, xs2.
Qed.

End bounded_fifo.

(** ** The unbounded queue is a first-in first-out buffer *)

Section unbounded_fifo.
Import UnboundedLockFreeQueue.
Context {T : Type}.
Variable size : Z.
Variable dflt : T.
Hypothesis size_range : 0 ≤ size < 2 ^ SIZE_WIDTH - 1.

(** *** One block as a ring *)

Lemma ring_wf (b : @MemoryBlock T) :
  block_wf size b ↔ LockFreeQueue.wf size (ring size b).
Proof. unfold block_wf, LockFreeQueue.wf, ring; simpl. intuition. Qed.

Lemma ring_push (b : MemoryBlock) (c : list T) (v : T) :
  LockFreeQueue.represents size (ring size b) c →
  Z.of_nat (length c) < size →
  LockFreeQueue.represents size
    (ring size (written (writer b) ((writer b + 1) mod (size + 1)) v b)) (c ++ [v]).
Proof.
  intros Hrep Hroom.
  destruct (lfq_push_represents size size_range _ c v Hrep Hroom) as (q' & Hp & Hrep').
  rewrite (lfq_push_eq size size_range) in Hp by apply Hrep.
  case_decide; [discriminate|]. injection Hp as <-. exact Hrep'.
Qed.

Lemma ring_pop (b : MemoryBlock) (x : T) (c : list T) :
  LockFreeQueue.represents size (ring size b) (x :: c) →
  reader b ≠ writer b ∧
  array_get (data b) (reader b) = Some x ∧
  LockFreeQueue.represents size
    (ring size (set_reader ((reader b + 1) mod (size + 1)) b)) c.
Proof.
  intros Hrep.
  destruct (lfq_pop_represents size size_range _ x c x Hrep) as (q' & Hp & Hrep').
  destruct (lfq_pop_eq size size_range (ring size b) x) as (x' & Hx' & Heq);
    [apply Hrep|].
  rewrite Heq in Hp. case_decide as Hne; [discriminate|].
  injection Hp as -> <-. split; [done|]. split; [|exact Hrep'].
  destruct Hrep as ((_ & _ & Hr & _) & _). simpl in Hr.
  unfold array_get. by rewrite decide_True by lia.
Qed.

Lemma ring_nil (b : @MemoryBlock T) :
  LockFreeQueue.represents size (ring size b) [] → reader b = writer b.
Proof.
  intros (Hwf & Hlen & _).
  apply (lfq_empty_iff size (ring size b) Hwf). simpl in Hlen. lia.
Qed.

Lemma ring_full_iff (b : MemoryBlock) (c : list T) :
  LockFreeQueue.represents size (ring size b) c →
  (writer b + 1) mod (size + 1) = reader b ↔ Z.of_nat (length c) = size.
Proof.
  intros (Hwf & Hlen & _). rewrite Hlen.
  apply (lfq_full_iff size (ring size b) Hwf).
Qed.

(** The block a [push] has just allocated and written holds its value,
    provided a block has room for a value at all. *)
Lemma ring_new_block (v : T) :
  1 ≤ size →
  LockFreeQueue.represents size
    (ring size (written 0 ((0 + 1) mod (size + 1)) v (MemoryBlock_make size dflt))) [v].
Proof.
  intros Hpos.
  apply (ring_push (MemoryBlock_make size dflt) [] v); [|simpl; lia].
  split; [apply ring_wf, block_wf_make; done|]. split.
  - unfold LockFreeQueue.live; simpl. by rewrite Z.mod_0_l by lia.
  - intros i x Hi. by rewrite lookup_nil in Hi.
Qed.

(** What a block holds depends on its ring alone. *)
Lemma block_holds_agree (bs bs' : gmap positive (@MemoryBlock T)) (a : positive)
    (c : list T) :
  (∀ b, bs !! a = Some b → ∃ b', bs' !! a = Some b' ∧ ring size b' = ring size b) →
  block_holds size bs a c → block_holds size bs' a c.
Proof.
  intros Hagree (b & Hb & Hrep). destruct (Hagree b Hb) as (b' & Hb' & Hring).
  exists b'. by rewrite Hring.
Qed.

Lemma later_holds_agree (bs bs' : gmap positive (@MemoryBlock T)) (l : list positive)
    (cs : list (list T)) :
  (∀ a b, a ∈ l → bs !! a = Some b →
          ∃ b', bs' !! a = Some b' ∧ ring size b' = ring size b) →
  Forall2 (later_block_holds size bs) l cs →
  Forall2 (later_block_holds size bs') l cs.
Proof.
  intros Hagree Hall. induction Hall as [|a c l cs (b & Hb & Hr & Hne & Hrep) _ IH];
    [constructor|].
  constructor.
  - destruct (Hagree a b) as (b' & Hb' & Hring); [left|done|].
    exists b'. split; [done|]. rewrite Hring. split; [|done].
    apply (f_equal LockFreeQueue.reader) in Hring. simpl in Hring. congruence.
  - apply IH. intros a' b' Ha'. apply Hagree. by right.
Qed.

(** The chain of a state with the invariant, read off the two logs. *)
Lemma inv_chain (q : @t T) (l : list positive) :
  inv size q → allocated (mem q) = freed (mem q) ++ l →
  head q = l !! 0%nat ∧ tail q = last l ∧ is_Some (head q) ∧
  chain (blocks (mem q)) l ∧
  (∀ a, is_Some (blocks (mem q) !! a) ↔ a ∈ l) ∧ NoDup l.
Proof.
  intros (_ & _ & l0 & Hh & Hhead & Htail & Hch & Hdom & Halloc & Hnd & _) Hl.
  assert (l0 = l) as -> by (rewrite Halloc in Hl; by apply app_inv_head in Hl).
  rewrite Halloc in Hnd. apply NoDup_app in Hnd as (_ & _ & Hnd). done.
Qed.

(** *** The values held along the chain *)

(** The tail block and what it holds; and how the values held change when
    one more value is written into that block and no ring but its own is
    touched. *)
Lemma holds_tail_update (bs : gmap positive (@MemoryBlock T)) (h t : positive)
    (l : list positive) (c : list T) (cs : list (list T)) :
  NoDup (h :: l) → last (h :: l) = Some t →
  block_holds size bs h c → Forall2 (later_block_holds size bs) l cs →
  ∃ tb ct,
    bs !! t = Some tb ∧ LockFreeQueue.represents size (ring size tb) ct ∧
    ∀ (bs' : gmap positive (@MemoryBlock T)) (tb' : MemoryBlock) (v : T),
      bs' !! t = Some tb' → reader tb' = reader tb →
      LockFreeQueue.represents size (ring size tb') (ct ++ [v]) →
      (∀ a b, a ≠ t → bs !! a = Some b →
              ∃ b', bs' !! a = Some b' ∧ ring size b' = ring size b) →
      ∃ c' cs',
        block_holds size bs' h c' ∧ Forall2 (later_block_holds size bs') l cs' ∧
        c' ++ concat cs' = (c ++ concat cs) ++ [v].
Proof.
  intros Hnd Hlast Hh Hl. rewrite last_cons in Hlast.
  destruct (last l) as [t'|] eqn:Hlast'.
  - injection Hlast as ->.
    apply last_Some in Hlast' as [l0 ->].
    apply Forall2_app_inv_l in Hl as (cs0 & cs1 & Hl0 & Ht & ->).
    apply Forall2_cons_inv_l in Ht as (ct & cs2 & (tb & Htb & Hr0 & Hne & Hrep) & Hnil & ->).
    apply Forall2_nil_inv_l in Hnil as ->.
    apply NoDup_cons in Hnd as [Hhl Hnd].
    apply NoDup_app in Hnd as (_ & Hdisj & _).
    exists tb, ct. split; [done|]. split; [done|].
    intros bs' tb' v Htb' Hr' Hrep' Hframe.
    exists c, (cs0 ++ [ct ++ [v]]). split; [|split].
    + apply (block_holds_agree bs); [|done]. intros b. apply Hframe.
      intros ->. apply Hhl, elem_of_app. right. left.
    + apply Forall2_app.
      * apply (later_holds_agree bs); [|done]. intros a b Ha. apply Hframe.
        intros ->. by apply (Hdisj t Ha); left.
      * constructor; [|constructor]. exists tb'. split; [done|].
        split; [congruence|]. split; [by destruct ct|done].
    + rewrite !concat_app. simpl. rewrite !app_nil_r. by rewrite !app_assoc.
  - injection Hlast as ->. apply last_None in Hlast' as ->.
    apply Forall2_nil_inv_l in Hl as ->.
    destruct Hh as (hb & Hhb & Hrep). exists hb, c. split; [done|]. split; [done|].
    intros bs' tb' v Htb' Hr' Hrep' Hframe.
    exists (c ++ [v]), []. split; [by exists tb'|]. split; [constructor|].
    simpl. by rewrite !app_nil_r.
Qed.

(** A fresh queue holds nothing. *)
Lemma uq_holds_make (quota : nat) (q : t) :
  make size dflt quota = Returned q → uq_holds size q [].
Proof.
  intros Hmake. split; [by eapply inv_make|].
  revert Hmake. unfold make, mem_new. case_decide; [|done]. intros [= <-]; simpl.
  exists 1%positive, [], [], []. split; [done|]. split; [|split; [constructor|done]].
  exists (MemoryBlock_make size dflt). split; [apply lookup_insert_eq|].
  split; [apply ring_wf, block_wf_make; done|]. split.
  - unfold LockFreeQueue.live; simpl. by rewrite Z.mod_0_l by lia.
  - intros i x Hi. by rewrite lookup_nil in Hi.
Qed.

(** [push] appends its value to the values held, unless the tail block
    is full and the free store exhausted; it never returns [false]. *)
Lemma uq_holds_push (q : t) (xs : list T) (v : T) :
  1 ≤ size → uq_holds size q xs →
  ∃ c q', push size dflt q v = Some (c, q') ∧
    ((c = Returned true ∧ uq_holds size q' (xs ++ [v])) ∨
     (c = Thrown_bad_alloc ∧ q' = q ∧
      ¬ (base.size (blocks (mem q)) < quota (mem q))%nat)).
Proof.
  intros Hpos (Hinv & h & l & c & cs & Halloc & Hh & Hl & ->).
  destruct (inv_chain q (h :: l) Hinv Halloc) as (Hhead & Htail & _ & Hch & Hdom & Hnd).
  pose proof Hinv as ([Hc Hwf] & Hs & _).
  assert (capacity q ≠ 0) as Hc0 by lia.
  destruct (last (h :: l)) as [t|] eqn:Hlast; [|by apply last_None in Hlast].
  destruct (holds_tail_update _ h t l c cs Hnd Hlast Hh Hl)
    as (tb & ct & Htb & Hrept & Hupd).
  destruct (Hwf t tb Htb) as (Hlen & Hr & Hw).
  assert (size_t_wrap (writer tb + 1) mod capacity q = (writer tb + 1) mod (size + 1))
    as Hnext by (by rewrite size_t_wrap_small, Hc by lia).
  destruct (decide ((writer tb + 1) mod (size + 1) = reader tb)) as [Hfull|Hroom].
  - destruct (decide (base.size (blocks (mem q)) < quota (mem q))%nat) as [Hmem|Hmem].
    + destruct (inv_alloc size dflt size_range q t tb
                  (size_t_wrap (0 + 1) mod capacity q) v Hinv Htail Htb)
        as [Hnone Hinv']; [rewrite Hc; apply Z.mod_pos_bound; lia|].
      eexists _, _. split.
      { eapply uq_push_full_alloc; try done; [by rewrite Hnext|].
        rewrite size_t_wrap_small; lia. }
      left. split; [done|]. split; [exact Hinv'|].
      set (a := next_addr (mem q)) in *.
      assert (∀ x, x ∈ h :: l → x ≠ a) as Hfresh.
      { intros x Hx%Hdom ->. rewrite Hnone in Hx. by destruct Hx. }
      exists h, (l ++ [a]), c, (cs ++ [[v]]). simpl.
      split. { by rewrite Halloc, <- app_assoc. }
      assert (∀ x b, x ∈ h :: l → blocks (mem q) !! x = Some b →
                ∃ b', <[a:=written 0 (size_t_wrap (0 + 1) mod capacity q) v
                              (MemoryBlock_make size dflt)]>
                        (<[t:=set_next_block (Some a) tb]>
                           (<[a:=MemoryBlock_make size dflt]> (blocks (mem q)))) !! x
                      = Some b' ∧ ring size b' = ring size b) as Hframe.
      { intros x b Hx Hb. rewrite lookup_insert_ne by (symmetry; by apply Hfresh).
        destruct (decide (x = t)) as [->|Hxt].
        - rewrite lookup_insert_eq. assert (b = tb) as -> by congruence.
          by eexists.
        - rewrite !lookup_insert_ne; [by exists b|symmetry; by apply Hfresh|done]. }
      split; [|split].
      * apply (block_holds_agree (blocks (mem q))); [|done].
        intros b. apply Hframe. left.
      * apply Forall2_app.
        -- apply (later_holds_agree (blocks (mem q))); [|done].
           intros x b Hx. apply Hframe. by right.
        -- constructor; [|constructor]. eexists. split; [apply lookup_insert_eq|].
           split; [done|]. split; [done|].
           rewrite size_t_wrap_small, Hc by lia. by apply ring_new_block.
      * rewrite concat_app. simpl. by rewrite app_assoc.
    + exists Thrown_bad_alloc, q. split; [|by right].
      eapply uq_push_full_nomem; try done. by rewrite Hnext.
  - eexists _, _. split.
    { eapply uq_push_room; try done; [by rewrite Hnext|lia]. }
    left. split; [done|]. rewrite Hnext.
    assert (Z.of_nat (length ct) < size) as Hlt.
    { pose proof (proj2 (ring_full_iff tb ct Hrept)) as Hiff.
      destruct Hrept as (Hwft & Hlent & _).
      pose proof (lfq_live_range size size_range _ Hwft).
      destruct (decide (Z.of_nat (length ct) = size)) as [Heq|Hneq]; [|lia].
      exfalso. by apply Hroom, Hiff. }
    split.
    { apply (inv_with_block size q t tb); [done..|].
      apply block_wf_written; [done|]. apply Z.mod_pos_bound. lia. }
    destruct (Hupd (<[t:=written (writer tb) ((writer tb + 1) mod (size + 1)) v tb]>
                     (blocks (mem q)))
                   (written (writer tb) ((writer tb + 1) mod (size + 1)) v tb) v)
      as (c' & cs' & Hh' & Hl' & Hxs).
    { apply lookup_insert_eq. }
    { done. }
    { by apply ring_push. }
    { intros a b Hat Hb. exists b. by rewrite lookup_insert_ne. }
    exists h, l, c', cs'. done.
Qed.

(** [pop] hands out the oldest of the values held; when none is held it
    returns [false] and changes nothing. *)
Lemma uq_holds_pop (q : t) (xs : list T) (e : T) :
  uq_holds size q xs →
  match xs with
  | [] => pop q e = Some (false, e, q)
  | x :: xs' => ∃ q', pop q e = Some (true, x, q') ∧ uq_holds size q' xs'
  end.
Proof.
  intros (Hinv & h & l & c & cs & Halloc & Hh & Hl & ->).
  destruct (inv_chain q (h :: l) Hinv Halloc) as (Hhead & Htail & _ & Hch & Hdom & Hnd).
  pose proof Hinv as ([Hc Hwf] & Hs & _).
  assert (capacity q ≠ 0) as Hc0 by lia.
  destruct Hh as (hb & Hhb & Hreph).
  destruct (Hwf h hb Hhb) as (Hlen & Hr & Hw).
  apply NoDup_cons in Hnd as [Hhl Hnd].
  destruct c as [|x c]; simpl.
  - apply ring_nil in Hreph as Hdrained.
    destruct Hch as [(hb' & Hhb' & Hnext) Hch].
    assert (hb' = hb) as -> by congruence.
    destruct Hl as [|n cn l cs (nb & Hnb & Hr0 & Hne & Hrepn) Hl]; simpl.
    + by eapply uq_pop_empty.
    + destruct cn as [|x cn]; [done|]. simpl.
      destruct (ring_pop nb x cn Hrepn) as (Hrw & Hx & Hrepn').
      destruct (inv_advance size q h n hb Hinv Hhead Hhb Hnext) as (Hnh & _ & Hinv').
      destruct (Hwf n nb Hnb) as (Hnlen & Hnr & Hnw).
      apply NoDup_cons in Hnd as [Hnl Hnd].
      rewrite Hr0 in Hx, Hrepn', Hrw.
      eexists. split.
      { eapply uq_pop_advance_read; done. }
      rewrite size_t_wrap_small, Hc by lia.
      split.
      { apply (inv_with_block size _ n nb); [|simpl; by rewrite lookup_delete_ne|done|].
        - done.
        - apply block_wf_set_reader; [done|]. apply Z.mod_pos_bound. lia. }
      exists n, l, cn, cs. simpl.
      split. { by rewrite Halloc, <- app_assoc. }
      split. { eexists. split; [apply lookup_insert_eq|done]. }
      split; [|done].
      apply (later_holds_agree (blocks (mem q))); [|done].
      intros a b Ha Hb. exists b. split; [|done].
      rewrite lookup_insert_ne by (intros ->; done).
      rewrite lookup_delete_ne; [done|]. intros ->. apply Hhl. by right.
  - destruct (ring_pop hb x c Hreph) as (Hrw & Hx & Hreph').
    eexists. split; [by eapply uq_pop_read|].
    rewrite size_t_wrap_small, Hc by lia.
    split.
    { apply (inv_with_block size q h hb); [done..|].
      apply block_wf_set_reader; [done|]. apply Z.mod_pos_bound. lia. }
    exists h, l, c, cs. simpl. split; [done|].
    split. { eexists. split; [apply lookup_insert_eq|done]. }
    split; [|done].
    apply (later_holds_agree (blocks (mem q))); [|done].
    intros a b Ha Hb. exists b. split; [|done].
    rewrite lookup_insert_ne; [done|]. by intros ->.
Qed.

(** Every run from a state that holds [xs] is defined and is a run of the
    buffer [xs]. *)
Lemma uq_run_fifo (cs : list (call T)) (q : t) (xs : list T) (e : T) :
  1 ≤ size → uq_holds size q xs →
  ∃ os e' q', uq_run size dflt q e cs = Some (os, e', q') ∧ fifo_trace xs e cs os.
Proof.
  intros Hpos. revert q xs e.
  induction cs as [|[v|] cs IH]; intros q xs e Hq; simpl; [by eexists _, _, _| |].
  - destruct (uq_holds_push q xs v Hpos Hq)
      as (c & q1 & -> & [[-> Hq1]|(-> & -> & _)]); simpl.
    + destruct (IH q1 (xs ++ [v]) e Hq1) as (os & e' & q' & -> & Htr). simpl.
      by eexists _, _, _.
    + destruct (IH q xs e Hq) as (os & e' & q' & -> & Htr). simpl.
      by eexists _, _, _.
  - pose proof (uq_holds_pop q xs e Hq) as Hpop. destruct xs as [|x xs].
    + rewrite Hpop. simpl.
      destruct (IH q [] e Hq) as (os & e' & q' & -> & Htr). simpl.
      by eexists _, _, _.
    + destruct Hpop as (q1 & -> & Hq1). simpl.
      destruct (IH q1 xs x Hq1) as (os & e' & q' & -> & Htr). simpl.
      by eexists _, _, _.
Qed.

(** Every state reached by whole calls holds some list of values. *)
Lemma uq_reachable_holds (q : t) :
  1 ≤ size → reachable size dflt q → ∃ xs, uq_holds size q xs.
Proof.
  intros Hpos. induction 1 as [quota q Hq|q v c q' _ [xs IH] Hp|q e b e' q' _ [xs IH] Hp].
  - exists []. by eapply uq_holds_make.
  - destruct (uq_holds_push q xs v Hpos IH) as (c0 & q0 & Hp0 & [[-> Hq0]|(-> & -> & _)]).
    + exists (xs ++ [v]). congruence.
    + exists xs. congruence.
  - pose proof (uq_holds_pop q xs e IH) as Hpop. destruct xs as [|x xs].
    + exists []. congruence.
    + destruct Hpop as (q0 & Hp0 & Hq0). exists xs. congruence.
Qed.

(** X3.  For [size >= 1], whatever the order of the [push] and [pop] calls,
    an [UnboundedLockFreeQueue<T, size>] answers each of them as an
    unbounded first-in first-out buffer does: every call is defined; [push]
    never returns [false]: it returns [true] and the value is queued, or
    [new] throws and nothing is queued; [pop] returns the value queued
    longest ago, or [false] without touching its argument when none is
    queued. *)
Theorem uq_is_fifo (quota : nat) (q0 : t) (cs : list (call T)) (e : T) :
  1 ≤ size →
  make size dflt quota = Returned q0 →
  ∃ os e' q', uq_run size dflt q0 e cs = Some (os, e', q') ∧ fifo_trace [] e cs os.
Proof.
  intros Hpos Hmake. apply uq_run_fifo; [done|]. by eapply uq_holds_make.
Qed.

(** X4.  For [size >= 1], in the states reached by whole calls a [pop] that
    returns [false] has changed nothing: neither the queue (no block was
    deleted, [head] did not move) nor its argument.  The failed [pop] that
    moves [head] needs a producer stopped in the middle of [push]. *)
Theorem uq_sequential_pop_false_idle (q q' : t) (e e' : T) :
  1 ≤ size →
  reachable size dflt q →
  pop q e = Some (false, e', q') →
  q' = q ∧ e' = e.
Proof.
  intros Hpos [xs Hq]%uq_reachable_holds Hpop; [|done].
  pose proof (uq_holds_pop q xs e Hq) as Hspec. destruct xs as [|x xs].
  - rewrite Hspec in Hpop. by injection Hpop as <- <-.
  - destruct Hspec as (q1 & Hp1 & _). congruence.
Qed.

End unbounded_fifo.

(** ** The destructor *)

Section destructor.
Import UnboundedLockFreeQueue.
Context {T : Type}.
Variable size : Z.
Variable dflt : T.
Hypothesis size_range : 0 ≤ size < 2 ^ SIZE_WIDTH - 1.

(** Live blocks at distinct addresses are no more than the live blocks. *)
Lemma live_blocks_count (bs : gmap positive (@MemoryBlock T)) (l : list positive) :
  NoDup l → (∀ a, a ∈ l → is_Some (bs !! a)) → (length l ≤ base.size bs)%nat.
Proof.
  revert bs. induction l as [|a l IH]; intros bs Hnd Hlive; simpl; [lia|].
  apply NoDup_cons in Hnd as [Ha Hnd].
  assert (is_Some (bs !! a)) as Hsome by (apply Hlive; left).
  pose proof (map_size_delete_Some a bs Hsome) as Hsize.
  assert (base.size bs ≠ 0%nat) as Hne.
  { intros Hz%map_size_empty_iff. rewrite Hz, lookup_empty in Hsome. by destruct Hsome. }
  specialize (IH (delete a bs) Hnd).
  assert (length l ≤ base.size (delete a bs))%nat; [|lia].
  apply IH. intros x Hx. rewrite lookup_delete_ne by (intros ->; done).
  apply Hlive. by right.
Qed.

(** The loop walks a chain [ch :: l] to its last block [tp] and deletes every
    block before [tp], each once and in the order of the chain. *)
Lemma destroy_loop_chain (l : list positive) (ch tp : positive) (q : @t T) (fuel : nat) :
  head q = Some ch →
  chain (blocks (mem q)) (ch :: l) → NoDup (ch :: l) →
  last (ch :: l) = Some tp → (length l ≤ fuel)%nat →
  ∃ q',
    destroy_loop fuel q (Some ch) (l !! 0%nat) = Some q' ∧
    head q' = Some tp ∧ stop q' = stop q ∧
    allocated (mem q') = allocated (mem q) ∧
    freed (mem q') ++ [tp] = freed (mem q) ++ ch :: l ∧
    is_Some (blocks (mem q') !! tp) ∧
    (∀ a, a ∈ ch :: l → a ≠ tp → blocks (mem q') !! a = None) ∧
    (∀ a, a ∉ ch :: l → blocks (mem q') !! a = blocks (mem q) !! a).
Proof.
  revert ch q fuel. induction l as [|n l IH]; intros ch q fuel Hh Hch Hnd Hlast Hfuel.
  - injection Hlast as <-. exists q. destruct fuel; simpl.
    + repeat split; try done. by destruct Hch as [(b & -> & _) _].
      intros a Ha Hne. apply list_elem_of_singleton in Ha. done.
    + repeat split; try done. by destruct Hch as [(b & -> & _) _].
      intros a Ha Hne. apply list_elem_of_singleton in Ha. done.
  - destruct fuel as [|fuel]; [simpl in Hfuel; lia|].
    rewrite last_cons_cons in Hlast.
    destruct Hch as [(cb & Hcb & Hnext) Hch].
    pose proof Hch as [(nb & Hnb & Hnn) _].
    apply NoDup_cons in Hnd as [Hcl Hnd].
    assert (n ≠ ch) as Hne by (intros ->; apply Hcl; left).
    simpl. unfold update, mem_delete; simpl. rewrite Hcb; simpl.
    rewrite lookup_insert_eq; simpl.
    rewrite delete_insert_eq, lookup_delete_ne, Hnb by done. simpl.
    rewrite Hnn.
    edestruct (IH n) as (q' & -> & Hh' & Hs' & Ha' & Hf' & Ht' & Hdel & Hkeep);
      [| |exact Hnd|exact Hlast| |].
    { done. }
    { simpl. by apply (chain_delete _ (n :: l)). }
    { simpl in Hfuel. lia. }
    exists q'. simpl in *. split; [done|]. split; [done|]. split; [done|].
    split; [done|]. split. { by rewrite Hf', <- app_assoc. }
    split; [done|]. split.
    + intros a [->|Ha]%elem_of_cons Hat.
      * rewrite Hkeep by done. apply lookup_delete_eq.
      * by apply Hdel.
    + intros a [Hac Ha]%not_elem_of_cons.
      rewrite Hkeep by done. by rewrite lookup_delete_ne.
Qed.

(** X5.  The destructor of a queue in any state reached by whole calls is
    defined (the walk of the chain meets no dangling link and ends); it sets
    [stop], and when it has run no block is live and every block that [new]
    ever handed out to the queue has been deleted, each exactly once. *)
Theorem uq_destroy_frees_all (q : @t T) :
  reachable size dflt q →
  ∃ q',
    destroy q = Some q' ∧ stop q' = true ∧
    blocks (mem q') = ∅ ∧
    freed (mem q') = allocated (mem q) ∧
    allocated (mem q') = allocated (mem q) ∧
    NoDup (freed (mem q')).
Proof.
  intros (_ & _ & l & [h Hh] & Hhead & Htail & Hch & Hdom & Halloc & Hnd & _)%uq_reachable_inv;
    [|done].
  destruct l as [|h' l]; [by rewrite Hh in Hhead|].
  rewrite Hh in Hhead. injection Hhead as <-.
  assert (NoDup (h :: l)) as Hndl.
  { rewrite Halloc in Hnd. by apply NoDup_app in Hnd as (_ & _ & Hnd). }
  destruct (last (h :: l)) as [tp|] eqn:Hlast; [|by apply last_None in Hlast].
  pose proof Hch as [(hb & Hhb & Hnext) _].
  destruct (destroy_loop_chain l h tp (set_stop true q) (base.size (blocks (mem q))))
    as (q1 & Hloop & Hh1 & Hs1 & Ha1 & Hf1 & [tb Htb] & Hdel & Hkeep); try done.
  { pose proof (live_blocks_count (blocks (mem q)) (h :: l) Hndl) as Hcount.
    simpl in Hcount. assert (S (length l) ≤ base.size (blocks (mem q)))%nat; [|lia].
    apply Hcount. intros a Ha. by apply Hdom. }
  unfold destroy, load; simpl. rewrite Hh; simpl. rewrite Hhb; simpl.
  rewrite Hnext, Hloop; simpl. unfold mem_delete. rewrite Hh1, Htb; simpl.
  eexists. split; [done|]. simpl in *.
  split; [done|]. split.
  - apply map_empty. intros a. destruct (decide (a = tp)) as [->|Hat].
    + apply lookup_delete_eq.
    + rewrite lookup_delete_ne by done.
      destruct (decide (a ∈ h :: l)) as [Ha|Ha]; [by apply Hdel|].
      rewrite Hkeep by done. apply eq_None_not_Some. by rewrite Hdom.
  - rewrite Hf1, Ha1. split; [done|]. split; [done|]. by rewrite <- Halloc.
Qed.

End destructor.

(** ** Blocks without a usable slot *)

Section size_zero.
Import UnboundedLockFreeQueue.
Context {T : Type}.
Variable dflt : T.

Lemma size_zero_range : 0 ≤ 0 < 2 ^ SIZE_WIDTH - 1.
Proof. by vm_compute. Qed.

(** X6.  An [UnboundedLockFreeQueue<T, 0>] loses every value.  In every
    state reached by whole calls, [push] is defined and returns [true]
    (or is left by [std::bad_alloc]); it never returns [false].  Yet [pop]
    returns [false] in every such state and leaves its argument alone: no
    value pushed is ever handed out. *)
Theorem uq_size_zero_loses_values (q : t) (v e : T) :
  reachable 0 dflt q →
  (∃ c q', push 0 dflt q v = Some (c, q') ∧ c ≠ Returned false) ∧
  (∃ q', pop q e = Some (false, e, q')).
Proof.
  intros Hinv%(uq_reachable_inv 0 dflt size_zero_range).
  pose proof Hinv as
    ([Hc Hwf] & Hs & l & [h Hh] & Hhead & Htail & Hch & Hdom & Halloc & Hnd & Hfresh).
  assert (capacity q ≠ 0) as Hc0 by lia.
  split.
  - destruct (last l) as [tp|] eqn:Hlast;
      [|apply last_None in Hlast; subst l; simpl in Hhead; congruence].
    destruct (proj2 (Hdom tp)) as [tb Htb]; [by apply last_Some_elem_of|].
    destruct (Hwf tp tb Htb) as (Hl & Hr & Hw).
    assert (size_t_wrap (writer tb + 1) mod capacity q = reader tb) as Hfull.
    { rewrite Hc. simpl. rewrite Z.mod_1_r. lia. }
    destruct (decide (base.size (blocks (mem q)) < quota (mem q))%nat) as [Hmem|Hmem].
    + destruct (inv_alloc 0 dflt size_zero_range q tp tb 0 v Hinv Htail Htb)
        as [Hnone _]; [lia|].
      eexists _, _. split; [eapply uq_push_full_alloc; done|discriminate].
    + exists Thrown_bad_alloc, q. split; [|discriminate].
      by eapply uq_push_full_nomem.
  - destruct (proj2 (Hdom h)) as [hb Hhb].
    { apply (list_elem_of_lookup_2 l 0%nat). congruence. }
    destruct (Hwf h hb Hhb) as (Hl & Hr & Hw).
    assert (reader hb = writer hb) as Hdrained by lia.
    destruct (next_block hb) as [n|] eqn:Hnext.
    + destruct (inv_advance 0 q h n hb Hinv Hh Hhb Hnext) as (Hnh & [nb Hnb] & _).
      destruct (Hwf n nb Hnb) as (Hnl & Hnr & Hnw).
      eexists. eapply uq_pop_advance_empty; try done. lia.
    + exists q. by eapply uq_pop_empty.
Qed.

End size_zero.

(** ** Who writes what *)

Section ownership.
Import UnboundedLockFreeQueue.
Context {T : Type}.
Variable size : Z.
Variable dflt : T.
Hypothesis size_range : 0 ≤ size < 2 ^ SIZE_WIDTH - 1.

(** The three ways [push] ends on a state with the invariant. *)
Lemma uq_push_cases (q : t) (v : T) :
  inv size q →
  ∃ tp tb, tail q = Some tp ∧ blocks (mem q) !! tp = Some tb ∧
    (push size dflt q v =
       Some (Returned true,
             with_block tp (written (writer tb) ((writer tb + 1) mod (size + 1)) v tb) q)
     ∨ push size dflt q v = Some (Thrown_bad_alloc, q)
     ∨ (blocks (mem q) !! next_addr (mem q) = None ∧
        (writer tb + 1) mod (size + 1) = reader tb ∧
        push size dflt q v =
          Some (Returned true,
                with_block (next_addr (mem q))
                  (written 0 ((0 + 1) mod (size + 1)) v (MemoryBlock_make size dflt))
                  (set_tail (Some (next_addr (mem q)))
                     (with_block tp (set_next_block (Some (next_addr (mem q))) tb)
                        (with_new_block size dflt q)))))).
Proof.
  intros Hinv.
  pose proof Hinv as
    ([Hc Hwf] & Hs & l & [h Hh] & Hhead & Htail & Hch & Hdom & Halloc & Hnd & Hfresh).
  destruct (last l) as [tp|] eqn:Hlast;
    [|apply last_None in Hlast; subst l; simpl in Hhead; congruence].
  destruct (proj2 (Hdom tp)) as [tb Htb]; [by apply last_Some_elem_of|].
  destruct (Hwf tp tb Htb) as (Hl & Hr & Hw).
  assert (capacity q ≠ 0) as Hc0 by lia.
  assert (size_t_wrap (writer tb + 1) mod capacity q = (writer tb + 1) mod (size + 1))
    as Hnext by (by rewrite size_t_wrap_small, Hc by lia).
  assert (size_t_wrap (0 + 1) mod capacity q = (0 + 1) mod (size + 1))
    as Hone by (by rewrite size_t_wrap_small, Hc by lia).
  exists tp, tb. split; [done|]. split; [done|].
  destruct (decide ((writer tb + 1) mod (size + 1) = reader tb)) as [Hfull|Hroom].
  - destruct (decide (base.size (blocks (mem q)) < quota (mem q))%nat) as [Hmem|Hmem].
    + right. right.
      destruct (inv_alloc size dflt size_range q tp tb 0 v Hinv Htail Htb)
        as [Hnone _]; [lia|].
      split; [done|]. split; [done|]. rewrite <- Hone.
      eapply uq_push_full_alloc; try done; [by rewrite Hnext|].
      rewrite size_t_wrap_small; lia.
    + right. left. eapply uq_push_full_nomem; try done. by rewrite Hnext.
  - left. rewrite <- Hnext. eapply uq_push_room; try done; [by rewrite Hnext|lia].
Qed.

(** The four ways [pop] ends on a state with the invariant. *)
Lemma uq_pop_cases (q : t) (e : T) :
  inv size q →
  ∃ h hb, head q = Some h ∧ blocks (mem q) !! h = Some hb ∧
    (pop q e = Some (false, e, q)
     ∨ (∃ x, pop q e =
          Some (true, x, with_block h (set_reader ((reader hb + 1) mod (size + 1)) hb) q))
     ∨ (∃ n nb, n ≠ h ∧ blocks (mem q) !! n = Some nb ∧
          (pop q e = Some (false, e, without_block h (set_head (Some n) q))
           ∨ ∃ x, pop q e =
               Some (true, x,
                     with_block n (set_reader ((0 + 1) mod (size + 1)) nb)
                       (without_block h (set_head (Some n) q)))))).
Proof.
  intros Hinv.
  pose proof Hinv as
    ([Hc Hwf] & Hs & l & [h Hh] & Hhead & Htail & Hch & Hdom & Halloc & Hnd & Hfresh).
  destruct (proj2 (Hdom h)) as [hb Hhb].
  { apply (list_elem_of_lookup_2 l 0%nat). congruence. }
  destruct (Hwf h hb Hhb) as (Hl & Hr & Hw).
  assert (capacity q ≠ 0) as Hc0 by lia.
  assert (size_t_wrap (reader hb + 1) mod capacity q = (reader hb + 1) mod (size + 1))
    as Hnext by (by rewrite size_t_wrap_small, Hc by lia).
  assert (size_t_wrap (0 + 1) mod capacity q = (0 + 1) mod (size + 1))
    as Hone by (by rewrite size_t_wrap_small, Hc by lia).
  exists h, hb. split; [done|]. split; [done|].
  destruct (decide (reader hb = writer hb)) as [Hdrained|Hne].
  - destruct (next_block hb) as [n|] eqn:Hnb.
    + destruct (inv_advance size q h n hb Hinv Hh Hhb Hnb) as (Hnh & [nb Hnb'] & _).
      destruct (Hwf n nb Hnb') as (Hnl & Hnr & Hnw).
      right. right. exists n, nb. split; [done|]. split; [done|].
      destruct (decide (writer nb = 0)) as [Hw0|Hw0].
      * left. by eapply uq_pop_advance_empty.
      * right. destruct (array_get_Some (data nb) 0) as [x Hx]; [lia|].
        exists x. rewrite <- Hone. by eapply uq_pop_advance_read.
    + left. by eapply uq_pop_empty.
  - right. left. destruct (array_get_Some (data hb) (reader hb)) as [x Hx]; [lia|].
    exists x. rewrite <- Hnext. by eapply uq_pop_read.
Qed.

(** X7.  The two sides keep to their own fields.  In a state reached by
    whole calls, [push] never returns [false], never moves [head], deletes
    no block and changes no reader index; [pop] never moves [tail],
    allocates no block, and changes neither the writer index, nor a slot,
    nor the link of any block it leaves live. *)
Theorem uq_ownership (q : t) :
  reachable size dflt q →
  (∀ v c q', push size dflt q v = Some (c, q') →
     c ≠ Returned false ∧ head q' = head q ∧ freed (mem q') = freed (mem q) ∧
     ∀ a b, blocks (mem q) !! a = Some b →
            ∃ b', blocks (mem q') !! a = Some b' ∧ reader b' = reader b) ∧
  (∀ e b e' q', pop q e = Some (b, e', q') →
     tail q' = tail q ∧ allocated (mem q') = allocated (mem q) ∧
     ∀ a b', blocks (mem q') !! a = Some b' →
             ∃ b0, blocks (mem q) !! a = Some b0 ∧ writer b' = writer b0 ∧
                   data b' = data b0 ∧ next_block b' = next_block b0).
Proof.
  intros Hinv%(uq_reachable_inv size dflt size_range). split.
  - intros v c q' Hp.
    destruct (uq_push_cases q v Hinv) as (tp & tb & Ht & Htb & [Hc|[Hc|(Hnone & _ & Hc)]]);
      rewrite Hc in Hp; injection Hp as <- <-; simpl.
    + split; [done|]. split; [done|]. split; [done|]. intros a b Hb.
      destruct (decide (a = tp)) as [->|Hne].
      * rewrite lookup_insert_eq. eexists. split; [done|]. simpl. congruence.
      * rewrite lookup_insert_ne by done. by exists b.
    + split; [done|]. split; [done|]. split; [done|]. intros a b Hb. by exists b.
    + split; [done|]. split; [done|]. split; [done|]. intros a b Hb.
      assert (a ≠ next_addr (mem q)) as Hfresh by (intros ->; congruence).
      rewrite lookup_insert_ne by done.
      destruct (decide (a = tp)) as [->|Hne].
      * rewrite lookup_insert_eq. eexists. split; [done|]. simpl. congruence.
      * rewrite !lookup_insert_ne by done. by exists b.
  - intros e b e' q' Hp.
    destruct (uq_pop_cases q e Hinv)
      as (h & hb & Hh & Hhb & [Hc|[[x Hc]|(n & nb & Hnh & Hnb & [Hc|[x Hc]])]]);
      rewrite Hc in Hp; injection Hp as <- <- <-; simpl.
    + split; [done|]. split; [done|]. intros a b' Hb'. by exists b'.
    + split; [done|]. split; [done|]. intros a b' Hb'.
      destruct (decide (a = h)) as [->|Hne].
      * rewrite lookup_insert_eq in Hb'. injection Hb' as <-. by exists hb.
      * rewrite lookup_insert_ne in Hb' by done. by exists b'.
    + split; [done|]. split; [done|]. intros a b' Hb'.
      destruct (decide (a = h)) as [->|Hne].
      * by rewrite lookup_delete_eq in Hb'.
      * rewrite lookup_delete_ne in Hb' by done. by exists b'.
    + split; [done|]. split; [done|]. intros a b' Hb'.
      destruct (decide (a = n)) as [->|Hne].
      * rewrite lookup_insert_eq in Hb'. injection Hb' as <-. by exists nb.
      * rewrite lookup_insert_ne in Hb' by done.
        destruct (decide (a = h)) as [->|Hah].
        -- by rewrite lookup_delete_eq in Hb'.
        -- rewrite lookup_delete_ne in Hb' by done. by exists b'.
Qed.

End ownership.

(** ** How many blocks are live *)

Section memory_bound.
Import UnboundedLockFreeQueue.
Context {T : Type}.
Variable size : Z.
Variable dflt : T.
Hypothesis size_range : 0 ≤ size < 2 ^ SIZE_WIDTH - 1.

Lemma chain_last_next (bs : gmap positive (@MemoryBlock T)) (l : list positive)
    (tp : positive) (tb : MemoryBlock) :
  chain bs l → last l = Some tp → bs !! tp = Some tb → next_block tb = None.
Proof.
  induction l as [|a l IH]; [done|]. intros [(b & Hb & Hnext) Hch] Hlast Htb.
  destruct l as [|a2 l].
  - injection Hlast as ->. simpl in Hnext. congruence.
  - rewrite last_cons_cons in Hlast. by apply IH.
Qed.

Lemma uq_behind_make (quota : nat) (q : t) :
  make size dflt quota = Returned q → uq_behind size q.
Proof.
  unfold make, mem_new. case_decide; [|done]. intros [= <-] a b; simpl.
  destruct (decide (a = 1%positive)) as [->|Hne]; [done|].
  by rewrite lookup_insert_ne, lookup_empty.
Qed.

Lemma uq_behind_push (q q' : t) (v : T) (c : completion bool) :
  inv size q → uq_behind size q →
  push size dflt q v = Some (c, q') → uq_behind size q'.
Proof.
  intros Hinv Hbehind Hp.
  pose proof Hinv as ([Hc Hwf] & _ & l & _ & _ & Htail & Hch & _).
  destruct (uq_push_cases size dflt size_range q v Hinv)
    as (tp & tb & Ht & Htb & [Hcase|[Hcase|(Hnone & Hfull & Hcase)]]);
    rewrite Hcase in Hp; injection Hp as <- <-; [|done|].
  - assert (next_block tb = None) as Hnext.
    { apply (chain_last_next (blocks (mem q)) l tp tb Hch); [congruence|done]. }
    intros a b; simpl. destruct (decide (a = tp)) as [->|Hne].
    + rewrite lookup_insert_eq. intros [= <-] Hh; simpl.
      split; [|done]. by apply (Hbehind tp tb).
    + rewrite lookup_insert_ne by done. apply Hbehind.
  - destruct (Hwf tp tb Htb) as (_ & Hr & Hw).
    intros a b; simpl. destruct (decide (a = next_addr (mem q))) as [->|Hne].
    + rewrite lookup_insert_eq. by intros [= <-] Hh.
    + rewrite lookup_insert_ne by done.
      destruct (decide (a = tp)) as [->|Hnt].
      * rewrite lookup_insert_eq. intros [= <-] Hh; simpl.
        destruct (Hbehind tp tb Htb Hh) as [Hr0 _]. split; [done|]. intros _.
        rewrite Hr0, ring_succ in Hfull by lia. case_decide; lia.
      * rewrite !lookup_insert_ne by done. apply Hbehind.
Qed.

Lemma uq_behind_pop (q q' : t) (e e' : T) (b : bool) :
  inv size q → uq_behind size q →
  pop q e = Some (b, e', q') → uq_behind size q'.
Proof.
  intros Hinv Hbehind Hp.
  destruct (uq_pop_cases size size_range q e Hinv)
    as (h & hb & Hh & Hhb & [Hc|[[x Hc]|(n & nb & Hnh & Hnb & [Hc|[x Hc]])]]);
    rewrite Hc in Hp; injection Hp as <- <- <-; [done| | |].
  - intros a b0; simpl. destruct (decide (a = h)) as [->|Hne]; [congruence|].
    rewrite lookup_insert_ne by done. apply Hbehind.
  - intros a b0; simpl; intros Hb0 Hn.
    destruct (decide (a = h)) as [->|Hne]; [by rewrite lookup_delete_eq in Hb0|].
    rewrite lookup_delete_ne in Hb0 by done. apply (Hbehind a b0 Hb0). congruence.
  - intros a b0; simpl; intros Hb0 Hn.
    assert (a ≠ n) as Han by congruence.
    rewrite lookup_insert_ne in Hb0 by done.
    destruct (decide (a = h)) as [->|Hne]; [by rewrite lookup_delete_eq in Hb0|].
    rewrite lookup_delete_ne in Hb0 by done. apply (Hbehind a b0 Hb0). congruence.
Qed.

Lemma uq_reachable_behind (q : t) : reachable size dflt q → uq_behind size q.
Proof.
  induction 1 as [quota q Hq|q v c q' Hr IH Hp|q e b e' q' Hr IH Hp].
  - by eapply uq_behind_make.
  - eapply uq_behind_push; [|done..]. by apply (uq_reachable_inv size dflt).
  - eapply uq_behind_pop; [|done..]. by apply (uq_reachable_inv size dflt).
Qed.

Lemma map_size_le_list (bs : gmap positive (@MemoryBlock T)) (l : list positive) :
  (∀ a, is_Some (bs !! a) → a ∈ l) → (base.size bs ≤ length l)%nat.
Proof.
  revert bs. induction l as [|a l IH]; intros bs Hdom; simpl.
  - assert (bs = ∅) as ->; [|by rewrite map_size_empty].
    apply map_empty. intros i. apply eq_None_not_Some. intros Hi%Hdom.
    by apply elem_of_nil in Hi.
  - specialize (IH (delete a bs)). rewrite map_size_delete in IH.
    assert (base.size bs ≤ S (base.size (delete a bs)))%nat as Hle.
    { rewrite map_size_delete. destruct (bs !! a); simpl; lia. }
    rewrite map_size_delete in Hle.
    assert ((match bs !! a with Some _ => Init.Nat.pred | None => id end)
              (base.size bs) ≤ length l)%nat; [|lia].
    apply IH. intros x Hx. destruct (decide (x = a)) as [->|Hne].
    + rewrite lookup_delete_eq in Hx. by destruct Hx.
    + rewrite lookup_delete_ne in Hx by done.
      apply Hdom in Hx. by apply elem_of_cons in Hx as [?|?].
Qed.

(** Behind the head, every block but the last holds [size] values and the
    last at least one. *)
Lemma later_count (bs : gmap positive (@MemoryBlock T)) (l : list positive)
    (cs : list (list T)) :
  Forall2 (later_block_holds size bs) l cs → chain bs l →
  (∀ a b, a ∈ l → bs !! a = Some b →
          reader b = 0 ∧ (next_block b ≠ None → writer b = size)) →
  l ≠ [] →
  size * (Z.of_nat (length l) - 1) + 1 ≤ Z.of_nat (length (concat cs)).
Proof.
  induction 1 as [|a c l cs (b & Hb & Hr0 & Hne & Hrep) Hall IH];
    intros Hch Hbehind Hl; [done|].
  destruct Hch as [(b' & Hb' & Hnext) Hch].
  assert (b' = b) as -> by congruence.
  simpl. rewrite length_app.
  destruct l as [|a2 l].
  - apply Forall2_nil_inv_l in Hall as ->. simpl.
    destruct c; [done|]. simpl. lia.
  - assert (Z.of_nat (length c) = size) as Hfull.
    { destruct (Hbehind a b) as [_ Hw]; [left|done|].
      destruct Hrep as (_ & -> & _). unfold LockFreeQueue.live; simpl.
      rewrite Hw, Hr0 by (rewrite Hnext; done).
      rewrite Z.sub_0_r. apply Z.mod_small. lia. }
    assert (size * (Z.of_nat (length (a2 :: l)) - 1) + 1
            ≤ Z.of_nat (length (concat cs))) as Hrest.
    { apply IH; [done| |done]. intros x bx Hx. apply Hbehind. by right. }
    simpl in *. nia.
Qed.

Lemma uq_run_reachable (cs : list (call T)) (q q' : t) (e e' : T)
    (os : list (uq_outcome T)) :
  reachable size dflt q → uq_run size dflt q e cs = Some (os, e', q') →
  reachable size dflt q'.
Proof.
  revert q e os e' q'. induction cs as [|[v|] cs IH]; intros q e os e' q' Hq; simpl.
  - by intros [= <- <- <-].
  - destruct (push size dflt q v) as [[c q1]|] eqn:Hp; simpl; [|done].
    destruct (uq_run size dflt q1 e cs) as [[[os1 e1] q2]|] eqn:Hrun; simpl; [|done].
    intros [= <- <- <-]. eapply IH; [|done]. by eapply reach_push.
  - destruct (pop q e) as [[[b e1] q1]|] eqn:Hp; simpl; [|done].
    destruct (uq_run size dflt q1 e1 cs) as [[[os1 e2] q2]|] eqn:Hrun; simpl; [|done].
    intros [= <- <- <-]. eapply IH; [|done]. by eapply reach_pop.
Qed.

(** A run leaves in the queue the values its trace counts. *)
Lemma uq_run_holds (cs : list (call T)) (q q' : t) (xs : list T) (e e' : T)
    (os : list (uq_outcome T)) :
  1 ≤ size → uq_holds size q xs →
  uq_run size dflt q e cs = Some (os, e', q') →
  ∃ xs', uq_holds size q' xs' ∧
         Z.of_nat (length xs') = Z.of_nat (length xs) + queued os.
Proof.
  intros Hpos. revert q xs e os e' q'.
  induction cs as [|[v|] cs IH]; intros q xs e os e' q' Hq; simpl.
  - intros [= <- <- <-]. exists xs. split; [done|]. simpl. lia.
  - destruct (uq_holds_push size dflt size_range q xs v Hpos Hq)
      as (c & q1 & -> & [[-> Hq1]|(-> & -> & _)]); simpl.
    + destruct (uq_run size dflt q1 e cs) as [[[os1 e1] q2]|] eqn:Hrun; simpl; [|done].
      intros [= <- <- <-].
      destruct (IH _ _ _ _ _ _ Hq1 Hrun) as (xs' & Hq' & Hlen).
      exists xs'. split; [done|]. rewrite Hlen, length_app. simpl. lia.
    + destruct (uq_run size dflt q e cs) as [[[os1 e1] q2]|] eqn:Hrun; simpl; [|done].
      intros [= <- <- <-].
      destruct (IH _ _ _ _ _ _ Hq Hrun) as (xs' & Hq' & Hlen).
      exists xs'. split; [done|]. by rewrite Hlen.
  - pose proof (uq_holds_pop size size_range q xs e Hq) as Hpop. destruct xs as [|x xs].
    + rewrite Hpop. simpl.
      destruct (uq_run size dflt q e cs) as [[[os1 e1] q2]|] eqn:Hrun; simpl; [|done].
      intros [= <- <- <-].
      destruct (IH _ _ _ _ _ _ Hq Hrun) as (xs' & Hq' & Hlen).
      exists xs'. split; [done|]. by rewrite Hlen.
    + destruct Hpop as (q1 & -> & Hq1). simpl.
      destruct (uq_run size dflt q1 x cs) as [[[os1 e1] q2]|] eqn:Hrun; simpl; [|done].
      intros [= <- <- <-].
      destruct (IH _ _ _ _ _ _ Hq1 Hrun) as (xs' & Hq' & Hlen).
      exists xs'. split; [done|]. rewrite Hlen.
      change (queued (UPopped true x :: os1)) with (queued os1 - 1).
      rewrite Nat2Z.inj_succ. lia.
Qed.

(** The live blocks of a state that holds [xs]. *)
Lemma uq_holds_live_bound (q : t) (xs : list T) :
  1 ≤ size → uq_holds size q xs → uq_behind size q →
  Z.of_nat (base.size (blocks (mem q))) ≤ 2 + Z.of_nat (length xs) / size ∧
  (xs = [] → base.size (blocks (mem q)) = 1%nat).
Proof.
  intros Hpos (Hinv & h & l & c & ccs & Halloc & Hh & Hl & ->) Hbehind.
  destruct (inv_chain size q (h :: l) Hinv Halloc)
    as (Hhead & Htail & _ & Hch & Hdom & Hnd).
  pose proof (map_size_le_list (blocks (mem q)) (h :: l)) as Hlive.
  pose proof (live_blocks_count (blocks (mem q)) (h :: l) Hnd) as Hlive'.
  simpl in Hlive, Hlive'.
  assert (base.size (blocks (mem q)) = S (length l)) as Hsize.
  { apply Nat.le_antisymm; [apply Hlive|apply Hlive']; intros a Ha; by apply Hdom. }
  rewrite length_app.
  destruct (decide (l = [])) as [->|Hne].
  - simpl in *. split; [|done].
    assert (0 ≤ Z.of_nat (length c + length (concat ccs)) / size)
      by (apply Z.div_pos; lia).
    lia.
  - apply NoDup_cons in Hnd as [Hhl Hnd].
    pose proof (later_count (blocks (mem q)) l ccs Hl (proj2 Hch)) as Hcount.
    assert (size * (Z.of_nat (length l) - 1) + 1 ≤ Z.of_nat (length (concat ccs))) as Hc.
    { apply Hcount; [|done]. intros a b Ha Hb. apply (Hbehind a b Hb).
      simpl in Hhead. rewrite Hhead. intros [= ->]. done. }
    split.
    + assert (Z.of_nat (length l) - 1
              ≤ Z.of_nat (length c + length (concat ccs)) / size); [|lia].
      apply Z.div_le_lower_bound; lia.
    + intros Hnil. apply app_eq_nil in Hnil as [_ Hnil]. rewrite Hnil in Hc.
      exfalso. destruct l; [done|]. simpl in Hc. nia.
Qed.

(** X8.  For [size >= 1], after any sequence of calls on a fresh queue the
    number of live blocks is at most two more than the queued values
    divided by [size], where the queued values are the pushes that returned
    [true] less the pops that returned [true]: blocks are deleted as they
    are drained, and a drained queue is back to one block. *)
Theorem uq_live_blocks_bound (quota : nat) (q0 q' : t) (cs : list (call T))
    (e e' : T) (os : list (uq_outcome T)) :
  1 ≤ size →
  make size dflt quota = Returned q0 →
  uq_run size dflt q0 e cs = Some (os, e', q') →
  0 ≤ queued os ∧
  Z.of_nat (base.size (blocks (mem q'))) ≤ 2 + queued os / size ∧
  (queued os = 0 → base.size (blocks (mem q')) = 1%nat).
Proof.
  intros Hpos Hmake Hrun.
  destruct (uq_run_holds cs q0 q' [] e e' os Hpos
              (uq_holds_make size dflt size_range quota q0 Hmake) Hrun)
    as (xs & Hq' & Hlen).
  simpl in Hlen.
  assert (uq_behind size q') as Hbehind.
  { apply uq_reachable_behind. eapply uq_run_reachable; [|done]. by eapply reach_make. }
  destruct (uq_holds_live_bound q' xs Hpos Hq' Hbehind) as [Hbound Hone].
  rewrite Hlen in Hbound. split; [lia|]. split; [done|].
  intros Hz. apply Hone. destruct xs; [done|]. simpl in Hlen. lia.
Qed.

(** [push] and [pop] leave the capacity of the free store alone. *)
Lemma uq_push_quota (q q' : t) (v : T) (c : completion bool) :
  inv size q → push size dflt q v = Some (c, q') → quota (mem q') = quota (mem q).
Proof.
  intros Hinv Hp.
  destruct (uq_push_cases size dflt size_range q v Hinv)
    as (tp & tb & Ht & Htb & [Hcase|[Hcase|(Hnone & Hfull & Hcase)]]);
    rewrite Hcase in Hp; by injection Hp as <- <-.
Qed.

Lemma uq_pop_quota (q q' : t) (e e' : T) (b : bool) :
  inv size q → pop q e = Some (b, e', q') → quota (mem q') = quota (mem q).
Proof.
  intros Hinv Hp.
  destruct (uq_pop_cases size size_range q e Hinv)
    as (h & hb & Hh & Hhb & [Hc|[[x Hc]|(n & nb & Hnh & Hnb & [Hc|[x Hc]])]]);
    rewrite Hc in Hp; by injection Hp as <- <- <-.
Qed.

(** Pushing a list of values into a queue whose free store has room. *)
Lemma uq_push_all_holds (vs : list T) (q : t) (xs : list T) :
  1 ≤ size → uq_holds size q xs → uq_behind size q →
  2 + Z.of_nat (length xs + length vs) / size < Z.of_nat (quota (mem q)) →
  ∃ q1,
    push_all size dflt q vs = Some (replicate (length vs) (Returned true), q1) ∧
    uq_holds size q1 (xs ++ vs) ∧ uq_behind size q1 ∧
    quota (mem q1) = quota (mem q).
Proof.
  intros Hpos. revert q xs. induction vs as [|v vs IH]; intros q xs Hq Hbehind Hroom.
  - exists q. simpl. by rewrite app_nil_r.
  - destruct (uq_holds_push size dflt size_range q xs v Hpos Hq)
      as (c & q1 & Hp & [[-> Hq1]|(-> & -> & Hmem)]).
    + pose proof (uq_behind_push q q1 v _ (proj1 Hq) Hbehind Hp) as Hbehind1.
      pose proof (uq_push_quota q q1 v _ (proj1 Hq) Hp) as Hquota.
      destruct (IH q1 (xs ++ [v]) Hq1 Hbehind1) as (q2 & Hp2 & Hq2 & Hb2 & Hquota2).
      { rewrite Hquota, length_app. simpl in *.
        by replace (length xs + 1 + length vs)%nat
             with (length xs + S (length vs))%nat by lia. }
      exists q2. simpl. rewrite Hp; simpl. rewrite Hp2; simpl.
      split; [done|]. rewrite <- app_assoc in Hq2. split; [done|]. split; [done|].
      congruence.
    + exfalso. apply Hmem.
      destruct (uq_holds_live_bound q xs Hpos Hq Hbehind) as [Hbound _].
      assert (Z.of_nat (length xs) / size
              ≤ Z.of_nat (length xs + length (v :: vs)) / size).
      { apply Z.div_le_mono; lia. }
      lia.
Qed.

(** Popping the values a queue holds, oldest first. *)
Lemma uq_pop_n_holds (vs : list T) (q : t) (xs : list T) (e : T) :
  uq_holds size q (vs ++ xs) → uq_behind size q →
  ∃ q2,
    pop_n q e (length vs) = Some ((λ v, (true, v)) <$> vs, q2) ∧
    uq_holds size q2 xs ∧ uq_behind size q2.
Proof.
  revert q e. induction vs as [|v vs IH]; intros q e Hq Hbehind; simpl.
  - by exists q.
  - destruct (uq_holds_pop size size_range q (v :: vs ++ xs) e Hq) as (q1 & Hp & Hq1).
    pose proof (uq_behind_pop q q1 e v true (proj1 Hq) Hbehind Hp) as Hbehind1.
    destruct (IH q1 v Hq1 Hbehind1) as (q2 & Hp2 & Hq2 & Hb2).
    exists q2. rewrite Hp; simpl. by rewrite Hp2.
Qed.

(** X9.  For [size >= 1] and a free store with room for more than
    [2 + N / size] blocks, a fresh [UnboundedLockFreeQueue<T, size>] takes
    any [N] values: every [push] returns [true], the [N] pops that follow
    return [true] with the values in the order they were pushed, and one
    block is live at the end. *)
Theorem uq_fifo_round_trip (room : nat) (q0 : t) (vs : list T) (e : T) :
  1 ≤ size →
  make size dflt room = Returned q0 →
  2 + Z.of_nat (length vs) / size < Z.of_nat room →
  ∃ q1 q2,
    push_all size dflt q0 vs = Some (replicate (length vs) (Returned true), q1) ∧
    pop_n q1 e (length vs) = Some ((λ v, (true, v)) <$> vs, q2) ∧
    base.size (blocks (mem q2)) = 1%nat.
Proof.
  intros Hpos Hmake Hroom.
  pose proof (uq_holds_make size dflt size_range room q0 Hmake) as Hq0.
  pose proof (uq_behind_make room q0 Hmake) as Hb0.
  assert (quota (mem q0) = room) as Hquota.
  { revert Hmake. unfold make, mem_new. case_decide; [|done]. by intros [= <-]. }
  destruct (uq_push_all_holds vs q0 [] Hpos Hq0 Hb0) as (q1 & Hp & Hq1 & Hb1 & _).
  { by rewrite Hquota. }
  simpl in Hq1. rewrite <- (app_nil_r vs) in Hq1.
  destruct (uq_pop_n_holds vs q1 [] e Hq1 Hb1) as (q2 & Hpop & Hq2 & Hb2).
  exists q1, q2. split; [done|]. split; [done|].
  by apply (uq_holds_live_bound q2 [] Hpos Hq2 Hb2).
Qed.

End memory_bound.

(** ** The further theorems at concrete queues *)

Lemma lfq_is_bounded_fifo_witness :
  is_Some (run LockFreeQueue.push LockFreeQueue.pop (LockFreeQueue.make 3 0) 9
             [Push 1; Push 2; Pop; Pop; Pop]) ∧
  fst <$> run LockFreeQueue.push LockFreeQueue.pop (LockFreeQueue.make 3 0) 9
            [Push 1; Push 2; Pop; Pop; Pop] =
  fst <$> run (fifo_push 3) fifo_pop [] 9 [Push 1; Push 2; Pop; Pop; Pop].
Proof. apply (lfq_is_bounded_fifo 3 0). by vm_compute. Defined.

Lemma mq_is_bounded_fifo_witness :
  ∃ os e' m' xs',
    run MutexedQueue.push MutexedQueue.pop (MutexedQueue.make 3 0) 9
        [Push 1; Push 2; Pop; Pop; Pop] = Some (os, e', m') ∧
    MutexedQueue.lock m' = false ∧
    run (fifo_push 3) fifo_pop [] 9 [Push 1; Push 2; Pop; Pop; Pop] = Some (os, e', xs').
Proof. apply (mq_is_bounded_fifo 3 0). by vm_compute. Defined.

Lemma uq_is_fifo_witness :
  ∃ os e' q',
    uq_run 3 0 uq_fresh 9 [Push 1; Push 2; Pop; Pop; Pop] = Some (os, e', q') ∧
    fifo_trace [] 9 [Push 1; Push 2; Pop; Pop; Pop] os.
Proof.
  apply (uq_is_fifo 3 0) with (quota := 2%nat); [by vm_compute|lia|reflexivity].
Defined.

Lemma uq_sequential_pop_false_idle_witness :
  UnboundedLockFreeQueue.pop uq_fresh 9 = Some (false, 9, uq_fresh) ∧
  uq_fresh = uq_fresh ∧ 9 = 9.
Proof.
  split; [reflexivity|].
  apply (uq_sequential_pop_false_idle 3 0); [by vm_compute|lia| |reflexivity].
  apply (UnboundedLockFreeQueue.reach_make 3 0 2). reflexivity.
Defined.

Lemma uq_destroy_frees_all_witness :
  ∃ q',
    UnboundedLockFreeQueue.destroy uq_fresh = Some q' ∧
    UnboundedLockFreeQueue.stop q' = true ∧
    UnboundedLockFreeQueue.blocks (UnboundedLockFreeQueue.mem q') = ∅ ∧
    UnboundedLockFreeQueue.freed (UnboundedLockFreeQueue.mem q') =
      UnboundedLockFreeQueue.allocated (UnboundedLockFreeQueue.mem uq_fresh) ∧
    UnboundedLockFreeQueue.allocated (UnboundedLockFreeQueue.mem q') =
      UnboundedLockFreeQueue.allocated (UnboundedLockFreeQueue.mem uq_fresh) ∧
    NoDup (UnboundedLockFreeQueue.freed (UnboundedLockFreeQueue.mem q')).
Proof.
  apply (uq_destroy_frees_all 3 0); [by vm_compute|].
  apply (UnboundedLockFreeQueue.reach_make 3 0 2). reflexivity.
Defined.

Lemma uq_size_zero_loses_values_witness :
  (∃ c q',
     UnboundedLockFreeQueue.push 0 0
       (UnboundedLockFreeQueue.mk 1 (Some 1%positive) (Some 1%positive) false
          (UnboundedLockFreeQueue.mkMemory
             {[ 1%positive := UnboundedLockFreeQueue.mkBlock 0 0 None [0] ]}
             2%positive 2 [1%positive] [])) 7 = Some (c, q') ∧
     c ≠ Returned false) ∧
  (∃ q',
     UnboundedLockFreeQueue.pop
       (UnboundedLockFreeQueue.mk 1 (Some 1%positive) (Some 1%positive) false
          (UnboundedLockFreeQueue.mkMemory
             {[ 1%positive := UnboundedLockFreeQueue.mkBlock 0 0 None [0] ]}
             2%positive 2 [1%positive] [])) 9 = Some (false, 9, q')).
Proof.
  apply (uq_size_zero_loses_values 0).
  apply (UnboundedLockFreeQueue.reach_make 0 0 2). reflexivity.
Defined.

Lemma uq_ownership_witness :
  (∀ v c q', UnboundedLockFreeQueue.push 3 0 uq_fresh v = Some (c, q') →
     c ≠ Returned false ∧
     UnboundedLockFreeQueue.head q' = UnboundedLockFreeQueue.head uq_fresh ∧
     UnboundedLockFreeQueue.freed (UnboundedLockFreeQueue.mem q') =
       UnboundedLockFreeQueue.freed (UnboundedLockFreeQueue.mem uq_fresh) ∧
     ∀ a b,
       UnboundedLockFreeQueue.blocks (UnboundedLockFreeQueue.mem uq_fresh) !! a = Some b →
       ∃ b', UnboundedLockFreeQueue.blocks (UnboundedLockFreeQueue.mem q') !! a = Some b' ∧
             UnboundedLockFreeQueue.reader b' = UnboundedLockFreeQueue.reader b) ∧
  (∀ e b e' q', UnboundedLockFreeQueue.pop uq_fresh e = Some (b, e', q') →
     UnboundedLockFreeQueue.tail q' = UnboundedLockFreeQueue.tail uq_fresh ∧
     UnboundedLockFreeQueue.allocated (UnboundedLockFreeQueue.mem q') =
       UnboundedLockFreeQueue.allocated (UnboundedLockFreeQueue.mem uq_fresh) ∧
     ∀ a b',
       UnboundedLockFreeQueue.blocks (UnboundedLockFreeQueue.mem q') !! a = Some b' →
       ∃ b0, UnboundedLockFreeQueue.blocks (UnboundedLockFreeQueue.mem uq_fresh) !! a = Some b0 ∧
             UnboundedLockFreeQueue.writer b' = UnboundedLockFreeQueue.writer b0 ∧
             UnboundedLockFreeQueue.data b' = UnboundedLockFreeQueue.data b0 ∧
             UnboundedLockFreeQueue.next_block b' = UnboundedLockFreeQueue.next_block b0).
Proof.
  apply (uq_ownership 3 0); [by vm_compute|].
  apply (UnboundedLockFreeQueue.reach_make 3 0 2). reflexivity.
Defined.

Lemma uq_live_blocks_bound_witness :
  0 ≤ queued [UPushed (Returned true); UPopped true (1 : Z)] ∧
  Z.of_nat (base.size (UnboundedLockFreeQueue.blocks (UnboundedLockFreeQueue.mem
     (UnboundedLockFreeQueue.mk 4 (Some 1%positive) (Some 1%positive) false
        (UnboundedLockFreeQueue.mkMemory
           {[ 1%positive := UnboundedLockFreeQueue.mkBlock 1 1 None [1; 0; 0; 0] ]}
           2%positive 2 [1%positive] [])))))
    ≤ 2 + queued [UPushed (Returned true); UPopped true (1 : Z)] / 3 ∧
  (queued [UPushed (Returned true); UPopped true (1 : Z)] = 0 →
   base.size (UnboundedLockFreeQueue.blocks (UnboundedLockFreeQueue.mem
     (UnboundedLockFreeQueue.mk 4 (Some 1%positive) (Some 1%positive) false
        (UnboundedLockFreeQueue.mkMemory
           {[ 1%positive := UnboundedLockFreeQueue.mkBlock 1 1 None [1; 0; 0; 0] ]}
           2%positive 2 [1%positive] [])))) = 1%nat).
Proof.
  apply (uq_live_blocks_bound 3 0) with (quota := 2%nat) (q0 := uq_fresh)
    (cs := [Push 1; Pop]) (e := 9) (e' := 1); [by vm_compute|lia|reflexivity|reflexivity].
Defined.

Lemma uq_fifo_round_trip_witness :
  ∃ q0 q1 q2,
    UnboundedLockFreeQueue.make 3 0 4 = Returned q0 ∧
    UnboundedLockFreeQueue.push_all 3 0 q0 [1; 2; 3; 4]
      = Some (replicate 4 (Returned true), q1) ∧
    UnboundedLockFreeQueue.pop_n q1 9 4 = Some ((λ v, (true, v)) <$> [1; 2; 3; 4], q2) ∧
    base.size (UnboundedLockFreeQueue.blocks (UnboundedLockFreeQueue.mem q2)) = 1%nat.
Proof.
  eexists.
  destruct (uq_fifo_round_trip 3 0 ltac:(by vm_compute) 4 _ [1; 2; 3; 4] 9
              ltac:(lia) eq_refl ltac:(by vm_compute))
    as (q1 & q2 & H).
  exists q1, q2. split; [reflexivity|exact H].
Defined.

(** ** A consumer that runs while the producer stands in [push] *)

Section stalled_producer.
Import UnboundedLockFreeQueue.
Context {T : Type}.
Variable size : Z.
Variable dflt : T.
Hypothesis size_range : 0 ≤ size < 2 ^ SIZE_WIDTH - 1.

(** Where [push] stands before its write, on a state with the invariant:
    at the tail block, which has room; or at a block it has just linked
    behind the full tail block; unless [new] threw. *)
Lemma uq_push_prepare_cases (q : t) :
  inv size q →
  ∃ tp tb, tail q = Some tp ∧ blocks (mem q) !! tp = Some tb ∧
    (push_prepare size dflt q =
       Some (PushWrite q (Some tp) (writer tb) ((writer tb + 1) mod (size + 1)))
     ∨ push_prepare size dflt q = Some (PushThrow q)
     ∨ (blocks (mem q) !! next_addr (mem q) = None ∧
        push_prepare size dflt q =
          Some (PushWrite
                  (set_tail (Some (next_addr (mem q)))
                     (with_block tp (set_next_block (Some (next_addr (mem q))) tb)
                        (with_new_block size dflt q)))
                  (Some (next_addr (mem q))) 0 ((0 + 1) mod (size + 1))))).
Proof.
  intros Hinv.
  pose proof Hinv as
    ([Hc Hwf] & Hs & l & [h Hh] & Hhead & Htail & Hch & Hdom & Halloc & Hnd & Hfresh).
  destruct (last l) as [tp|] eqn:Hlast;
    [|apply last_None in Hlast; subst l; simpl in Hhead; congruence].
  destruct (proj2 (Hdom tp)) as [tb Htb]; [by apply last_Some_elem_of|].
  destruct (Hwf tp tb Htb) as (Hl & Hr & Hw).
  assert (capacity q ≠ 0) as Hc0 by lia.
  exists tp, tb. split; [done|]. split; [done|].
  unfold push_prepare, load. rewrite Hs, Htail; simpl. rewrite Htb; simpl.
  rewrite (size_t_rem_Some (size_t_wrap (writer tb + 1))) by done; simpl.
  rewrite (size_t_wrap_small (writer tb + 1)), Hc by lia.
  case_decide as Hfull; [|by left].
  right. destruct (decide (base.size (blocks (mem q)) < quota (mem q))%nat) as [Hmem|Hmem].
  - right.
    destruct (inv_alloc size dflt size_range q tp tb 0 dflt Hinv Htail Htb)
      as [Hnone _]; [lia|].
    split; [done|].
    assert (tp ≠ next_addr (mem q)) as Hne by (intros ->; congruence).
    rewrite mem_new_ok by done. unfold push_link, update; simpl.
    rewrite lookup_insert_ne, Htb by done; simpl.
    rewrite size_t_rem_Some by done; simpl.
    by rewrite size_t_wrap_small, Hc by lia.
  - left. by rewrite mem_new_fail by done.
Qed.

(** What holds while the producer stands there. *)
Lemma producer_stalled_inv (q : t) (ct : option positive) (wr_pos next_pos : Z) :
  producer_stalled size dflt q ct wr_pos next_pos →
  inv size q ∧ tail q = ct ∧ 0 ≤ wr_pos < size + 1 ∧ 0 ≤ next_pos < size + 1.
Proof.
  induction 1 as [q q' ct wr_pos next_pos Hreach Hprep
                 |q e b e' q' ct wr_pos next_pos _ (Hinv & Ht & Hwr & Hnp) Hpop].
  - apply (uq_reachable_inv size dflt size_range) in Hreach as Hinv.
    pose proof Hinv as ([Hc Hwf] & _).
    destruct (uq_push_prepare_cases q Hinv)
      as (tp & tb & Ht & Htb & [Hcase|[Hcase|[Hnone Hcase]]]);
      rewrite Hcase in Hprep; [|done|].
    + injection Hprep as <- <- <- <-.
      destruct (Hwf tp tb Htb) as (_ & _ & Hw).
      split; [done|]. split; [done|]. split; [done|]. apply Z.mod_pos_bound. lia.
    + injection Hprep as <- <- <- <-.
      split; [|split; [done|split; [lia|apply Z.mod_pos_bound; lia]]].
      destruct (inv_alloc size dflt size_range q tp tb 0 dflt Hinv Ht Htb)
        as [_ Hinv']; [lia|].
      eapply (inv_with_block size _ (next_addr (mem q)) _ (MemoryBlock_make size dflt))
        in Hinv'; [| simpl; apply lookup_insert_eq | done | by apply block_wf_make].
      revert Hinv'. unfold with_block, set_blocks; simpl.
      rewrite insert_insert_eq.
      assert (tp ≠ next_addr (mem q)) as Hne by (intros ->; congruence).
      rewrite (insert_insert_ne _ (next_addr (mem q)) tp) by done.
      by rewrite insert_insert_eq.
  - destruct (uq_pop_inv size size_range q e Hinv) as (b0 & e0 & q0 & Hp0 & Hinv').
    assert (q0 = q') as -> by congruence.
    split; [done|]. split; [|done]. rewrite <- Ht.
    destruct (uq_pop_cases size size_range q e Hinv)
      as (h & hb & Hh & Hhb & [Hc|[[x Hc]|(n & nb & Hnh & Hnb & [Hc|[x Hc]])]]);
      rewrite Hc in Hpop; by injection Hpop as <- <- <-.
Qed.

(** X10.  While the producer stands in [push] between the publication of
    a new block's link (or the full-test of the tail block) and the write
    of the element, the consumer may call [pop] as often as it likes: each
    such [pop] is defined, and so is the write the producer resumes with:
    the block [current_tail] is still live, the slot [wr_pos] is in range,
    [push] returns [true] and the queue keeps its invariant.  No [pop]
    deletes the block the producer is about to write. *)
Theorem uq_stalled_producer_safe (q : t) (ct : option positive) (wr_pos next_pos : Z) :
  producer_stalled size dflt q ct wr_pos next_pos →
  (∀ e, is_Some (pop q e)) ∧
  (∀ v, ∃ q', push_write q ct wr_pos next_pos v = Some (Returned true, q') ∧
              inv size q').
Proof.
  intros (Hinv & Ht & Hwr & Hnp)%producer_stalled_inv. split.
  - intros e. destruct (uq_pop_inv size size_range q e Hinv) as (b & e' & q' & -> & _).
    by eexists.
  - intros v.
    pose proof Hinv as ([Hc Hwf] & _ & l & [h Hh] & Hhead & Htail & _ & Hdom & _).
    destruct (last l) as [tp|] eqn:Hlast;
      [|apply last_None in Hlast; subst l; simpl in Hhead; congruence].
    destruct (proj2 (Hdom tp)) as [tb Htb]; [by apply last_Some_elem_of|].
    destruct (Hwf tp tb Htb) as (Hl & Hr & Hw).
    rewrite <- Ht, Htail.
    eexists. split; [apply push_write_eq; [done|lia]|].
    apply (inv_with_block size q tp tb); [done..|].
    by apply block_wf_written.
Qed.

End stalled_producer.

Lemma uq_stalled_producer_safe_witness :
  (∀ e, is_Some (UnboundedLockFreeQueue.pop uq_stalled e)) ∧
  (∀ v, ∃ q',
     UnboundedLockFreeQueue.push_write uq_stalled (Some 2%positive) 0 1 v
       = Some (Returned true, q') ∧
     UnboundedLockFreeQueue.inv 1 q').
Proof.
  apply (uq_stalled_producer_safe 1 0); [by vm_compute|].
  eapply (stalled_pop 1 0 _ 0).
  - eapply (stalled_prepare 1 0 uq_full_tail).
    + eapply (UnboundedLockFreeQueue.reach_push 1 0 _ 7);
        [apply (UnboundedLockFreeQueue.reach_make 1 0 2); reflexivity|reflexivity].
    + reflexivity.
  - reflexivity.
Defined.
